(** * square-skill-api: assembly and ranking of skill predictions

    A shallow embedding of [square_skill_api/models/prediction.py] and the
    properties of its ranking policy, alignment helpers and conversion
    strategies.

    Modelling conventions.
    - A Python [float] held by a pydantic model is a number or a NaN
      ([pyfloat]); numbers are exact rationals ([Q]), and every comparison
      with a NaN is false.  The numbers handed to the conversion
      strategies (logits, answer scores, context scores) are taken to be
      numbers.
    - [np.argsort] promises no order among equal scores.  The model fixes
      one; what is stated about the alignment helper holds for every
      order, or is stated for pairwise distinct scores.
    - Exceptions are values of [exn]; a computation that may raise returns a
      [result].
    - pydantic models are records; their constructors validate keyword
      arguments ([kwarg]) the way pydantic v1 does.
    - The payload of the model API is an untyped mapping whose shape
      depends on the strategy; each strategy gets a record with one optional
      field per key it reads ([None] for a missing key).
    - The only object the module mutates in place is the list stored under
      the payload key "attributions" of the classification strategy; list
      objects of that kind live in a heap and are passed by reference. *)

From Stdlib Require Import QArith ZArith Lia Lqa.
From stdpp Require Import gmap strings list sorting.

(* ===================================================================== *)
(** ** Python floats *)
(* ===================================================================== *)

(** A [float] object: a number, or a NaN.  pydantic's [float] validation
    lets both through and keeps the object it is given, so two fields may
    hold one and the same NaN object; [id] tells the NaN objects apart.
    The two infinities compare like numbers beyond all others and get no
    constructor of their own. *)
Inductive pyfloat : Type :=
| Num (x : Q)
| NaN (id : nat).

Coercion Num : Q >-> pyfloat.
Bind Scope Q_scope with pyfloat.

Definition Qlt_bool (x y : Q) : bool := negb (Qle_bool y x).

(** [a < b] *)
Definition float_lt (a b : pyfloat) : bool :=
  match a, b with
  | Num x, Num y => Qlt_bool x y
  | _, _ => false
  end.

(** [a == b] as the comparison of tuples and lists evaluates it: one and
    the same object counts as equal to itself, also when it is a NaN. *)
Definition float_eq (a b : pyfloat) : bool :=
  match a, b with
  | Num x, Num y => Qeq_bool x y
  | NaN i, NaN j => bool_decide (i = j)
  | _, _ => false
  end.

(* ===================================================================== *)
(** ** Exceptions and results *)
(* ===================================================================== *)

(** The exception classes the module can surface.  pydantic's
    [ValidationError] is kept apart from the [ValueError] it derives from. *)
Inductive exn : Set :=
| TypeError
| ValueError
| KeyError
| IndexError
| ValidationError.

Inductive result (A : Type) : Type :=
| Ok (a : A)
| Raise (e : exn).
Arguments Ok {A} a.
Arguments Raise {A} e.

Definition raises {A} (r : result A) : Prop := ∃ e, r = Raise e.

Global Instance result_ret : MRet result := fun A a => Ok a.
Global Instance result_bind : MBind result := fun A B f r =>
  match r with
  | Ok a => f a
  | Raise e => Raise e
  end.

(** [for x in xs: acc.append(f x)], stopping at the first exception. *)
Fixpoint for_each {A B} (f : A → result B) (xs : list A) : result (list B) :=
  match xs with
  | [] => Ok []
  | x :: xs' => y ← f x; ys ← for_each f xs'; Ok (y :: ys)
  end.

(** [d[key]] on a mapping entry that may be missing. *)
Definition getkey {A} (entry : option A) : result A :=
  match entry with
  | Some a => Ok a
  | None => Raise KeyError
  end.

(** [l[i]] for a non-negative index. *)
Definition getitem {A} (l : list A) (i : nat) : result A :=
  match l !! i with
  | Some a => Ok a
  | None => Raise IndexError
  end.

(* ===================================================================== *)
(** ** Dynamically shaped arguments *)
(* ===================================================================== *)

(** A value of type [Union[None, str, List[str]]]: the shape of the
    [questions] and [context] arguments and of the payload entries that
    override them. *)
Inductive text_value : Type :=
| VNone
| VStr (s : string)
| VList (l : list string).

(** Python truthiness of such a value. *)
Definition truthy (v : text_value) : bool :=
  match v with
  | VNone => false
  | VStr s => negb (String.eqb s "")
  | VList l => negb (bool_decide (l = []))
  end.

(** Iterating a [str] yields its characters as one-character strings. *)
Fixpoint chars (s : string) : list string :=
  match s with
  | EmptyString => []
  | String c s' => String c EmptyString :: chars s'
  end.

(** Iterating the value as a sequence of questions. *)
Definition iter_text (v : text_value) : result (list string) :=
  match v with
  | VNone => Raise TypeError
  | VStr s => Ok (chars s)
  | VList l => Ok l
  end.

(** A value of type [Union[None, float, List[float]]]. *)
Inductive score_value : Type :=
| SNone
| SFloat (x : Q)
| SList (l : list Q).

(** A keyword argument handed to a pydantic model: not supplied, supplied
    as [None], or supplied with a value. *)
Inductive kwarg (A : Type) : Type :=
| Omitted
| PassedNone
| Passed (a : A).
Arguments Omitted {A}.
Arguments PassedNone {A}.
Arguments Passed {A} a.

(** A value that may be the [zip_longest] fill value [None]. *)
Definition pass {A} (v : option A) : kwarg A :=
  match v with
  | Some a => Passed a
  | None => PassedNone
  end.

(** [Field(...)]: required and not nullable. *)
Definition required_field {A} (v : kwarg A) : result A :=
  match v with
  | Passed a => Ok a
  | _ => Raise ValidationError
  end.

(** [Field(default)] on a non-Optional type: the default applies when the
    argument is left out; an explicit [None] is rejected. *)
Definition default_field {A} (default : A) (v : kwarg A) : result A :=
  match v with
  | Omitted => Ok default
  | PassedNone => Raise ValidationError
  | Passed a => Ok a
  end.

(** [Optional[...] = None]. *)
Definition optional_field {A} (v : kwarg A) : option A :=
  match v with
  | Passed a => Some a
  | _ => None
  end.

(** pydantic's [str] validation of a [text_value]: lists are rejected. *)
Definition str_arg (v : text_value) : result (kwarg string) :=
  match v with
  | VNone => Ok PassedNone
  | VStr s => Ok (Passed s)
  | VList _ => Raise ValidationError
  end.

(** pydantic's [float] validation of a number or a list of numbers. *)
Definition float_arg (v : Q + list Q) : result (kwarg pyfloat) :=
  match v with
  | inl x => Ok (Passed (Num x))
  | inr _ => Raise ValidationError
  end.

(* ===================================================================== *)
(** ** The pydantic models *)
(* ===================================================================== *)

Definition NO_ANSWER_FOUND_STRING : string := "No answer found.".

Record PredictionOutput := {
  output : string;
  output_score : pyfloat;
}.

Record PredictionDocument := {
  index : string;
  document_id : string;
  document : string;
  span : option (list Z);
  url : string;
  source : string;
  document_score : pyfloat;
}.

Module Node.
Record t := { id : Z; name : string; q_node : bool; ans_node : bool; weight : pyfloat }.
End Node.

Module Edge.
Record t := { source : Z; target : Z; weight : pyfloat; label : string }.
End Edge.

Record SubGraph := {
  nodes : gmap string Node.t;
  edges : gmap string Edge.t;
}.

Record PredictionGraph := {
  lm_subgraph : SubGraph;
  attn_subgraph : SubGraph;
}.

(** A list holding three items: the index, the word and the score. *)
Record TokenAttribution := {
  token_index : Z;
  token_word : string;
  token_score : Q;
}.

Record Attributions := {
  topk_question_idx : list Z;
  topk_context_idx : list Z;
  question_tokens : list TokenAttribution;
  context_tokens : list TokenAttribution;
}.

Record Adversarial := {
  indices : option (list Z);
}.

Record Prediction := {
  question : string;
  prediction_score : pyfloat;
  prediction_output : PredictionOutput;
  prediction_documents : list PredictionDocument;
  prediction_graph : option PredictionGraph;
  attributions : option Attributions;
}.

Record QueryOutput := {
  predictions : list Prediction;
  adversarial : option Adversarial;
}.

(** [PredictionOutput(output=..., output_score=...)] *)
Definition new_PredictionOutput (o : kwarg string) (s : kwarg pyfloat)
  : result PredictionOutput :=
  o ← required_field o;
  s ← required_field s;
  Ok {| output := o; output_score := s |}.

(** [PredictionDocument(document=..., span=..., document_score=...)]; the
    module never passes the other fields. *)
Definition new_PredictionDocument
    (doc : kwarg string) (sp : kwarg (list Z)) (sc : kwarg pyfloat)
  : result PredictionDocument :=
  doc ← required_field doc;
  sc ← default_field (Num 0) sc;
  Ok {| index := ""; document_id := ""; document := doc;
        span := optional_field sp; url := ""; source := "";
        document_score := sc |}.

(** [Prediction(question=..., prediction_score=..., prediction_output=...,
    prediction_documents=...)]; graph and attributions start as [None]. *)
Definition new_Prediction
    (q : kwarg string) (s : kwarg pyfloat) (o : kwarg PredictionOutput)
    (docs : kwarg (list PredictionDocument))
  : result Prediction :=
  q ← required_field q;
  s ← required_field s;
  o ← required_field o;
  docs ← default_field [] docs;
  Ok {| question := q; prediction_score := s; prediction_output := o;
        prediction_documents := docs; prediction_graph := None;
        attributions := None |}.

(** [prediction.attributions = a] *)
Definition set_attributions (p : Prediction) (a : Attributions) : Prediction :=
  {| question := question p; prediction_score := prediction_score p;
     prediction_output := prediction_output p;
     prediction_documents := prediction_documents p;
     prediction_graph := prediction_graph p;
     attributions := Some a |}.

(** [prediction.prediction_graph = g] *)
Definition set_prediction_graph (p : Prediction) (g : PredictionGraph) : Prediction :=
  {| question := question p; prediction_score := prediction_score p;
     prediction_output := prediction_output p;
     prediction_documents := prediction_documents p;
     prediction_graph := Some g;
     attributions := attributions p |}.

(* ===================================================================== *)
(** ** Python and NumPy primitives *)
(* ===================================================================== *)

Section sorting.
Context {A : Type} (lt : A → A → bool).

(** Insert [x] in front of the first element that is not below it. *)
Fixpoint insert_sorted (x : A) (l : list A) : list A :=
  match l with
  | [] => [x]
  | y :: l' => if lt y x then y :: insert_sorted x l' else x :: y :: l'
  end.

(** A stable ascending sort that only uses [<], as Python's does. *)
Fixpoint stable_sort (l : list A) : list A :=
  match l with
  | [] => []
  | x :: l' => insert_sorted x (stable_sort l')
  end.

(** [sorted(l, reverse=...)]: with [reverse=True] CPython reverses the
    list, sorts it, and reverses the outcome, which keeps equal elements
    in their input order.  Where [<] is a strict weak order on the elements
    every stable sort returns this list; where it is not (keys with a NaN)
    the outcome depends on the comparisons made, here those of an
    insertion from the right. *)
Definition sorted (reversed : bool) (l : list A) : list A :=
  if reversed then reverse (stable_sort (reverse l)) else stable_sort l.
End sorting.

(** [sorted(l, key=key, reverse=...)] *)
Definition sorted_by_key {A K} (lt : K → K → bool) (key : A → K)
    (reverse : bool) (l : list A) : list A :=
  sorted (λ a b, lt (key a) (key b)) reverse l.

(** [enumerate(l)] *)
Definition enumerate {A} (l : list A) : list (nat * A) :=
  zip (seq 0 (length l)) l.

(** [np.argsort(scores)]: the positions in ascending order of score.
    NumPy's default sort is not stable: it promises no order among equal
    scores, and the order differs between versions.  Here equal scores are
    taken in input order, which is one of the orders NumPy may return; for
    pairwise distinct scores there is only one. *)
Definition argsort (scores : list Q) : list nat :=
  fst <$> sorted_by_key Qlt_bool snd false (enumerate scores).

Fixpoint argmax_from (best_i : nat) (best : Q) (i : nat) (l : list Q) : nat :=
  match l with
  | [] => best_i
  | x :: l' =>
      if Qlt_bool best x then argmax_from i x (S i) l'
      else argmax_from best_i best (S i) l'
  end.

(** [np.argmax(scores)]: the first position of the maximum; an empty
    sequence is rejected. *)
Definition argmax (scores : list Q) : result nat :=
  match scores with
  | [] => Raise ValueError
  | x :: l => Ok (argmax_from 0 x 1 l)
  end.

(** [zip_longest(a, b, fillvalue=None)] *)
Definition zip_longest2 {A B} (a : list A) (b : list B)
  : list (option A * option B) :=
  (λ i, (a !! i, b !! i)) <$> seq 0 (length a `max` length b).

(** [zip_longest(a, b, c, d, e, fillvalue=None)] *)
Definition zip_longest5 {A B C D E}
    (a : list A) (b : list B) (c : list C) (d : list D) (e : list E)
  : list (option A * option B * option C * option D * option E) :=
  (λ i, (a !! i, b !! i, c !! i, d !! i, e !! i)) <$>
    seq 0 (max_list [length a; length b; length c; length d; length e]).

(** The parameters of a Python function, required ones first. *)
Record signature := {
  required_params : list string;
  optional_params : list string;
}.

(** Binding the arguments of a call with [n_positional] positional
    arguments and the given keyword arguments: every keyword must name a
    parameter that no positional argument already fills, and every required
    parameter must receive an argument. *)
Definition check_call (sig : signature) (n_positional : nat)
    (keywords : list string) : result unit :=
  let params := required_params sig ++ optional_params sig in
  let by_position := take n_positional params in
  if bool_decide (length params < n_positional) then Raise TypeError
  else if bool_decide (Forall (λ k, k ∈ params ∧ k ∉ by_position) keywords) then
    if bool_decide (Forall (λ p, p ∈ by_position ∨ p ∈ keywords) (required_params sig))
    then Ok ()
    else Raise TypeError
  else Raise TypeError.

(* ===================================================================== *)
(** ** Ranking policy *)
(* ===================================================================== *)

(** The tuple [(answer_found, answer_score, document_score)]. *)
Definition sort_key : Type := bool * pyfloat * pyfloat.

(** [k1 < k2] on tuples: the first components that differ decide. *)
Definition key_lt (k1 k2 : sort_key) : bool :=
  let '(a1, s1, d1) := k1 in
  let '(a2, s2, d2) := k2 in
  if negb (Bool.eqb a1 a2) then negb a1 && a2
  else if negb (float_eq s1 s2) then float_lt s1 s2
  else float_lt d1 d2.

(** [k1 == k2] on tuples. *)
Definition key_eq (k1 k2 : sort_key) : bool :=
  let '(a1, s1, d1) := k1 in
  let '(a2, s2, d2) := k2 in
  Bool.eqb a1 a2 && float_eq s1 s2 && float_eq d1 d2.

(** [o not in ["", NO_ANSWER_FOUND_STRING]] *)
Definition answer_found (o : string) : bool :=
  negb (existsb (String.eqb o) [""; NO_ANSWER_FOUND_STRING]).

(** The untyped mapping form of a document and of a prediction, as far as
    the ranking policy reads it: [document_score] may be missing. *)
Record DocumentDict := {
  dict_document : string;
  dict_document_score : option pyfloat;
}.

Record PredictionDict := {
  dict_question : string;
  dict_prediction_score : pyfloat;
  dict_prediction_output : PredictionOutput;
  dict_prediction_documents : list DocumentDict;
}.

(** The [isinstance(p, Prediction)] branch. *)
Definition prediction_key (p : Prediction) : sort_key :=
  let score := Num 1 in
  let found := answer_found (output (prediction_output p)) in
  let answer_score := prediction_score p in
  let score :=
    match prediction_documents p with
    | d :: _ => document_score d   (* [getattr]: the attribute always exists *)
    | [] => score
    end in
  (found, answer_score, score).

(** The [isinstance(p, Dict)] branch. *)
Definition dict_key (p : PredictionDict) : sort_key :=
  let score := Num 1 in
  let found := answer_found (output (dict_prediction_output p)) in
  let answer_score := dict_prediction_score p in
  let score :=
    match dict_prediction_documents p with
    | d :: _ => default (Num 1) (dict_document_score d)   (* [.get(..., 1)] *)
    | [] => score
    end in
  (found, answer_score, score).

(** What [sort_predictions_key] may be handed. *)
Inductive key_input : Type :=
| OfPrediction (p : Prediction)
| OfDict (p : PredictionDict)
| OfOther.

Definition sort_predictions_key (p : key_input) : result sort_key :=
  match p with
  | OfPrediction p => Ok (prediction_key p)
  | OfDict p => Ok (dict_key p)
  | OfOther => Raise TypeError
  end.

(** The root validator.  It runs after field validation, so every element
    of [values["predictions"]] is a [Prediction]. *)
Definition sort_predictions (values : QueryOutput) : QueryOutput :=
  match adversarial values with
  | None =>
      {| predictions := sorted_by_key key_lt prediction_key true (predictions values);
         adversarial := None |}
  | Some _ => values
  end.

(** [cls(predictions=..., adversarial=...)] *)
Definition new_QueryOutput (preds : list Prediction) (adv : kwarg Adversarial)
  : QueryOutput :=
  sort_predictions {| predictions := preds; adversarial := optional_field adv |}.

(** pydantic's parsing of the mapping form into the typed form, and the
    typed form's [.dict()]. *)
Definition parse_document (d : DocumentDict) : PredictionDocument :=
  {| index := ""; document_id := ""; document := dict_document d; span := None;
     url := ""; source := "";
     document_score := default (Num 0) (dict_document_score d) |}.

Definition parse_prediction (p : PredictionDict) : Prediction :=
  {| question := dict_question p;
     prediction_score := dict_prediction_score p;
     prediction_output := dict_prediction_output p;
     prediction_documents := parse_document <$> dict_prediction_documents p;
     prediction_graph := None; attributions := None |}.

Definition document_dict (d : PredictionDocument) : DocumentDict :=
  {| dict_document := document d; dict_document_score := Some (document_score d) |}.

Definition prediction_dict (p : Prediction) : PredictionDict :=
  {| dict_question := question p;
     dict_prediction_score := prediction_score p;
     dict_prediction_output := prediction_output p;
     dict_prediction_documents := document_dict <$> prediction_documents p |}.

(* ===================================================================== *)
(** ** List objects and the heap *)
(* ===================================================================== *)

(** A per-prediction entry of an attributions list: an [Attributions]
    mapping or [None]. *)
Abbreviation attribution_entry := (option Attributions).

(** List objects are identified by a reference; the heap gives the current
    contents of each. *)
Abbreviation heap := (gmap nat (list attribution_entry)).

(** Computations that may raise and may update list objects.  The heap is
    threaded through an exception: what was mutated stays mutated. *)
Definition M (A : Type) : Type := heap → result A * heap.

Global Instance M_ret : MRet M := fun A a h => (Ok a, h).
Global Instance M_bind : MBind M := fun A B f c h =>
  match c h with
  | (Ok a, h') => f a h'
  | (Raise e, h') => (Raise e, h')
  end.

Definition lift {A} (r : result A) : M A := fun h => (r, h).

(** The current contents of a list object.  Every reference a payload
    holds is allocated; the empty list stands for the contents of any
    other. *)
Definition load (l : nat) : M (list attribution_entry) :=
  fun h => (Ok (default [] (h !! l)), h).

(** [l.extend(xs)] *)
Definition extend (l : nat) (xs : list attribution_entry) : M () :=
  fun h => (Ok (), <[l := default [] (h !! l) ++ xs]> h).

(** A list literal [[]]: a new list object. *)
Definition new_list : M nat :=
  fun h => let l := fresh (dom h) in (Ok l, <[l := []]> h).

(* ===================================================================== *)
(** ** Alignment helpers *)
(* ===================================================================== *)

(** The payload as [overwrite_from_model_api_output] sees it: the entries
    that hold a [text_value], by key. *)
Abbreviation text_entries := (string → option text_value).

(** [overwrite_from_model_api_output(model_api_output, key, value, len)] *)
Definition overwrite_from_model_api_output
    (model_api_output : text_entries) (key : string) (value : text_value)
    (len : nat) : text_value :=
  let value :=
    match model_api_output key with
    | Some v => if truthy v then v else value
    | None => value
    end in
  match value with
  | VStr s => VList (replicate len s)
  | _ => value
  end.

Definition overwrite_signature : signature :=
  {| required_params := ["model_api_output"; "key"; "value"];
     optional_params := ["len"] |}.

(** [_prediction_documents_iter_from_context(iter_len, context)].  The
    argument is a [text_value] or, on the right, a value of some other type
    (given by the type's name).  The generators of the first two branches
    are returned as the lists they produce. *)
Definition _prediction_documents_iter_from_context
    (iter_len : nat) (context : text_value + string)
  : result (list (list PredictionDocument)) :=
  match context with
  | inl VNone => Ok (replicate iter_len [])
  | inl (VStr s) =>
      for_each
        (λ _, d ← new_PredictionDocument (Passed s) Omitted Omitted; Ok [d])
        (seq 0 iter_len)
  | inl (VList l) =>
      if bool_decide (length l ≠ iter_len) then Raise ValueError
      else for_each
        (λ c, d ← new_PredictionDocument (Passed c) Omitted Omitted; Ok [d]) l
  | inr _ => Raise TypeError
  end.

(** [extend_and_sort_attributions_to_scores(scores, attributions,
    fill_value)], where [attributions] is a reference to the caller's list
    object.  The outcome is the contents of the returned list: a new list
    in the first branch, the caller's own list in the second.  The tuples
    of [sorted(zip(sort_idx, attributions))] start with pairwise distinct
    positions, so their first components alone order them. *)
Definition extend_and_sort_attributions_to_scores
    (scores : list Q) (attributions : nat) (fill_value : attribution_entry)
  : M (list attribution_entry) :=
  let sort_idx := reverse (argsort scores) in
  attrs ← load attributions;
  let len_diff := (Z.of_nat (length scores) - Z.of_nat (length attrs))%Z in
  if bool_decide (0 < len_diff)%Z then
    _ ← extend attributions (replicate (Z.to_nat len_diff) fill_value);
    attrs ← load attributions;
    mret (snd <$> sorted_by_key Nat.ltb fst false (zip sort_idx attrs))
  else mret attrs.

(* ===================================================================== *)
(** ** Conversion strategy: sequence classification *)
(* ===================================================================== *)

(** The payload of the two classification strategies.  An entry is [None]
    when its key is missing. *)
Record ClassificationOutput := {
  mo_questions : option text_value;
  mo_context : option text_value;
  (** [model_api_output["model_outputs"]["logits"]] *)
  mo_logits : option (list (list Q));
  (** a reference to the list stored under "attributions" *)
  mo_attributions : option nat;
  (** the value under "adversarial", which may itself be [None] *)
  mo_adversarial : option (option Adversarial);
  mo_labels : option (list Z);
  mo_lm_subgraph : option SubGraph;
  mo_attn_subgraph : option SubGraph;
}.

Definition mo_text (m : ClassificationOutput) : text_entries := λ key,
  if String.eqb key "questions" then mo_questions m
  else if String.eqb key "context" then mo_context m
  else None.

(** [model_api_output["model_outputs"]["logits"][0]] *)
Definition first_logits (m : ClassificationOutput) : result (list Q) :=
  l ← getkey (mo_logits m); getitem l 0.

(** [model_api_output.get("attributions", [])] *)
Definition get_attributions (m : ClassificationOutput) : M nat :=
  match mo_attributions m with
  | Some l => mret l
  | None => new_list
  end.

(** The body of the loop over the [zip_longest] rows. *)
Definition classification_prediction
    (row : option string * option Q * option string
           * option (list PredictionDocument) * option attribution_entry)
  : result Prediction :=
  let '(q, s, answer, docs, attr) := row in
  prediction_output ← new_PredictionOutput (pass answer) (pass (Num <$> s));
  prediction ← new_Prediction (pass q) (pass (Num <$> s))
                  (Passed prediction_output) (pass docs);
  match attr with
  | Some (Some a) => Ok (set_attributions prediction a)
  | _ => Ok prediction
  end.

(** The list [predictions] the loop of [from_sequence_classification]
    builds, before the envelope is constructed. *)
Definition classification_predictions
    (questions : text_value) (answers : list string)
    (model_api_output : ClassificationOutput) (context : text_value)
  : M (list Prediction) :=
  logits0 ← lift (first_logits model_api_output);
  let questions :=
    overwrite_from_model_api_output (mo_text model_api_output)
      "questions" questions (length logits0) in
  let context :=
    overwrite_from_model_api_output (mo_text model_api_output)
      "context" context (length logits0) in
  prediction_documents_iter ←
    lift (_prediction_documents_iter_from_context (length answers) (inl context));
  let predictions_scores := logits0 in
  all_attributions ← get_attributions model_api_output;
  all_attributions ←
    extend_and_sort_attributions_to_scores predictions_scores all_attributions None;
  questions ← lift (iter_text questions);
  lift (for_each classification_prediction
          (zip_longest5 questions predictions_scores answers
             prediction_documents_iter all_attributions)).

Definition from_sequence_classification
    (questions : text_value) (answers : list string)
    (model_api_output : ClassificationOutput) (context : text_value)
  : M QueryOutput :=
  preds ← classification_predictions questions answers model_api_output context;
  match mo_adversarial model_api_output with
  | Some adv => mret (new_QueryOutput preds (pass adv))
  | None => mret (new_QueryOutput preds Omitted)
  end.

(* ===================================================================== *)
(** ** Conversion strategy: sequence classification with graph *)
(* ===================================================================== *)

(** The body of the loop over [enumerate(zip(...))]. *)
Definition graph_prediction (model_api_output : ClassificationOutput)
    (row : nat * (string * Q * string)) : result Prediction :=
  let '(i, (q, s, answer)) := row in
  prediction_output ← new_PredictionOutput (Passed answer) (Passed (Num s));
  prediction ← new_Prediction (Passed q) (Passed (Num s))
                  (Passed prediction_output) Omitted;
  labels ← getkey (mo_labels model_api_output);
  label ← getitem labels 0;
  if bool_decide (Z.of_nat i = label) then
    lm ← getkey (mo_lm_subgraph model_api_output);
    attn ← getkey (mo_attn_subgraph model_api_output);
    Ok (set_prediction_graph prediction {| lm_subgraph := lm; attn_subgraph := attn |})
  else Ok prediction.

Definition from_sequence_classification_with_graph
    (questions : text_value) (answers : list string)
    (model_api_output : ClassificationOutput)
  : result QueryOutput :=
  logits0 ← first_logits model_api_output;
  let questions :=
    overwrite_from_model_api_output (mo_text model_api_output)
      "questions" questions (length logits0) in
  let predictions_scores := logits0 in
  questions ← iter_text questions;
  preds ← for_each (graph_prediction model_api_output)
             (enumerate (zip (zip questions predictions_scores) answers));
  Ok (new_QueryOutput preds Omitted).

(* ===================================================================== *)
(** ** Conversion strategy: extractive question answering *)
(* ===================================================================== *)

(** One candidate answer of the payload. *)
Record Answer := {
  answer : string;
  start : Z;
  end_ : Z;
  score : Q;
}.

(** An item of a list found in the payload's attributions: an integer or
    a token attribution. *)
Inductive attribution_item : Type :=
| IntItem (z : Z)
| TokenItem (t : TokenAttribution).

(** [attributions[0]]: a mapping from names to columns; a column holds one
    list of items per context. *)
Abbreviation AttributionColumns := (gmap string (list (list attribution_item))).

Record QuestionAnsweringOutput := {
  qa_questions : option text_value;
  qa_answers : option (list (list Answer));
  (** [model_api_output.get("attributions", None)] *)
  qa_attributions : option (list AttributionColumns);
  qa_adversarial : option (option Adversarial);
}.

Definition qa_text (m : QuestionAnsweringOutput) : text_entries := λ key,
  if String.eqb key "questions" then qa_questions m else None.

(** pydantic's validation of a [List[int]] and of a
    [List[TokenAttribution]]. *)
Definition int_list (v : list attribution_item) : result (list Z) :=
  for_each (λ x, match x with
                 | IntItem z => Ok z
                 | TokenItem _ => Raise ValidationError
                 end) v.

Definition token_list (v : list attribution_item)
  : result (list TokenAttribution) :=
  for_each (λ x, match x with
                 | TokenItem t => Ok t
                 | IntItem _ => Raise ValidationError
                 end) v.

(** A field without default of a model parsed from the mapping [d]. *)
Definition parse_field {A} (d : gmap string (list attribution_item))
    (name : string) (validate : list attribution_item → result A) : result A :=
  match d !! name with
  | Some v => validate v
  | None => Raise ValidationError
  end.

(** [Attributions.parse_obj(d)]: the four fields are required, and keys
    that name no field are ignored. *)
Definition parse_Attributions (d : gmap string (list attribution_item))
  : result Attributions :=
  tq ← parse_field d "topk_question_idx" int_list;
  tc ← parse_field d "topk_context_idx" int_list;
  qt ← parse_field d "question_tokens" token_list;
  ct ← parse_field d "context_tokens" token_list;
  Ok {| topk_question_idx := tq; topk_context_idx := tc;
        question_tokens := qt; context_tokens := ct |}.

(** The loop [for k in d: out[k] = d[k][i]].  Whatever the order of the
    keys, the loop raises [IndexError] if a column has no entry [i], and
    ends with an entry for every key if not. *)
Definition entries_at (d : AttributionColumns) (i : nat)
  : result (gmap string (list attribution_item)) :=
  if bool_decide (map_Forall (λ _ col, i < length col) d)
  then Ok (omap (λ col, col !! i) d)
  else Raise IndexError.

Definition get_attribution_by_context_i
    (attributions : list AttributionColumns) (context_i : nat)
  : result Attributions :=
  cols ← getitem attributions 0;
  context_attributions ← entries_at cols context_i;
  parse_Attributions context_attributions.

(** [context_score[i_context]] *)
Definition subscript_score (context_score : score_value) (i : nat) : result Q :=
  match context_score with
  | SNone => Raise TypeError
  | SFloat _ => Raise TypeError
  | SList l => getitem l i
  end.

(** The document and its score for the pair at position [i_context]. *)
Definition context_of_pair (context : text_value) (context_score : score_value)
    (i_context : nat) : result (string * (Q + list Q)) :=
  match context with
  | VList c =>
      context_doc_i ← getitem c i_context;
      context_score_i ← subscript_score context_score i_context;
      Ok (context_doc_i, inl context_score_i)
  | _ =>
      let context_doc_i := match context with VStr s => s | _ => "" end in
      let context_score_i :=
        match context_score with
        | SNone => inl 1%Q
        | SFloat x => inl x
        | SList l => inr l
        end in
      Ok (context_doc_i, context_score_i)
  end.

(** The body of the loop over the answers of one pair. *)
Definition qa_prediction (attributions : option (list AttributionColumns))
    (i_context : nat) (q : string) (context_doc_i : string)
    (context_score_i : Q + list Q) (top_answer_idx : nat)
    (row : nat * (Answer * Q)) : result Prediction :=
  let '(i_answer, (ans, s)) := row in
  let answer_str := answer ans in
  let answer_str :=
    if String.eqb answer_str "" then NO_ANSWER_FOUND_STRING else answer_str in
  prediction_output ← new_PredictionOutput (Passed answer_str) (Passed (Num s));
  prediction_documents ←
    (if negb (String.eqb context_doc_i "") then
       sc ← float_arg context_score_i;
       d ← new_PredictionDocument (Passed context_doc_i)
              (Passed [start ans; end_ ans]) sc;
       Ok [d]
     else Ok []);
  prediction ← new_Prediction (Passed q) (Passed (Num s))
                  (Passed prediction_output) (Passed prediction_documents);
  match attributions with
  | Some (c :: cs) =>
      if bool_decide (i_answer = top_answer_idx) then
        a ← get_attribution_by_context_i (c :: cs) i_context;
        Ok (set_attributions prediction a)
      else Ok prediction
  | _ => Ok prediction
  end.

(** The body of the loop over the question/answers pairs. *)
Definition qa_pair (context : text_value) (context_score : score_value)
    (attributions : option (list AttributionColumns))
    (row : nat * (string * list Answer)) : result (list Prediction) :=
  let '(i_context, (q, answers)) := row in
  '(context_doc_i, context_score_i) ← context_of_pair context context_score i_context;
  let scores := score <$> answers in
  top_answer_idx ← argmax scores;
  for_each (qa_prediction attributions i_context q context_doc_i
              context_score_i top_answer_idx)
    (enumerate (zip answers scores)).

(** The pairs the outer loop runs over. *)
Definition qa_pairs (questions : text_value) (model_api_output : QuestionAnsweringOutput)
  : result (list (nat * (string * list Answer))) :=
  answers ← getkey (qa_answers model_api_output);
  let questions :=
    overwrite_from_model_api_output (qa_text model_api_output)
      "questions" questions (length answers) in
  questions ← iter_text questions;
  Ok (enumerate (zip questions answers)).

Definition from_question_answering
    (questions : text_value) (model_api_output : QuestionAnsweringOutput)
    (context : text_value) (context_score : score_value)
  : result QueryOutput :=
  pairs ← qa_pairs questions model_api_output;
  let attributions := qa_attributions model_api_output in
  groups ← for_each (qa_pair context context_score attributions) pairs;
  let preds := concat groups in
  match qa_adversarial model_api_output with
  | Some adv => Ok (new_QueryOutput preds (pass adv))
  | None => Ok (new_QueryOutput preds Omitted)
  end.

(* ===================================================================== *)
(** ** Conversion strategy: generation *)
(* ===================================================================== *)

Record GenerationOutput := {
  gen_generated_texts : option (list (list string));
  (** [model_api_output.get("attributions", [])] *)
  gen_attributions : option (list attribution_entry);
}.

(** The body of the loop over the [zip_longest] rows. *)
Definition generation_prediction (context : text_value)
    (row : option string * option attribution_entry) : result Prediction :=
  let '(ans, attr) := row in
  prediction_output ← new_PredictionOutput (pass ans) (Passed (Num 1));
  doc ← str_arg context;
  d ← new_PredictionDocument doc Omitted Omitted;
  prediction ← new_Prediction Omitted (Passed (Num 1))
                  (Passed prediction_output) (Passed [d]);
  match attr with
  | Some (Some a) => Ok (set_attributions prediction a)
  | _ => Ok prediction
  end.

(** The call of [overwrite_from_model_api_output] passes [questions] and
    the payload by position and [len] by keyword; its outcome is not used
    again. *)
Definition from_generation
    (questions : text_value) (model_api_output : GenerationOutput)
    (context : text_value) (context_score : score_value)
  : result QueryOutput :=
  texts ← getkey (gen_generated_texts model_api_output);
  first ← getitem texts 0;
  _ ← check_call overwrite_signature 2 ["len"];
  preds ← for_each (generation_prediction context)
             (zip_longest2 first (default [] (gen_attributions model_api_output)));
  Ok (new_QueryOutput preds Omitted).

(* ===================================================================== *)
(** ** Statements about rankings *)
(* ===================================================================== *)

(** The prediction says that no answer was found. *)
Definition no_answer (p : Prediction) : Prop :=
  output (prediction_output p) = "" ∨
  output (prediction_output p) = NO_ANSWER_FOUND_STRING.

Global Instance no_answer_dec p : Decision (no_answer p).
Proof. unfold no_answer. apply _. Defined.

(** The score of the first listed document, and 1 for a prediction without
    documents. *)
Definition lead_document_score (p : Prediction) : pyfloat :=
  match prediction_documents p with
  | d :: _ => document_score d
  | [] => Num 1
  end.

Definition is_number (x : pyfloat) : Prop := ∃ q, x = Num q.

(** The two scores the ranking reads are numbers. *)
Definition ranked_by_numbers (p : Prediction) : Prop :=
  is_number (prediction_score p) ∧ is_number (lead_document_score p).

(** [x <= y] and [x == y] between numbers; neither holds of a NaN. *)
Definition float_le (x y : pyfloat) : Prop :=
  match x, y with
  | Num a, Num b => (a <= b)%Q
  | _, _ => False
  end.

Definition float_equal (x y : pyfloat) : Prop :=
  match x, y with
  | Num a, Num b => (a == b)%Q
  | _, _ => False
  end.

Global Instance float_equal_dec x y : Decision (float_equal x y).
Proof. destruct x, y; simpl; try apply _. apply Qeq_dec. Defined.

(** [p] ranks at least as high as [q]: an answer before no answer; within
    each of the two groups the higher prediction score first; and among
    equal prediction scores the higher lead document score first. *)
Definition ranks_at_least (p q : Prediction) : Prop :=
  (no_answer p → no_answer q) ∧
  ((no_answer p ↔ no_answer q) →
     float_le (prediction_score q) (prediction_score p) ∧
     (float_equal (prediction_score p) (prediction_score q) →
        float_le (lead_document_score q) (lead_document_score p))).

(** No prediction is followed, anywhere later, by one that ranks strictly
    higher. *)
Definition ranked (l : list Prediction) : Prop :=
  ∀ i j p q, i < j → l !! i = Some p → l !! j = Some q → ranks_at_least p q.

(** [p] and [q] agree in all three components of the ranking. *)
Definition same_rank (p q : Prediction) : Prop :=
  (no_answer p ↔ no_answer q) ∧
  float_equal (prediction_score p) (prediction_score q) ∧
  float_equal (lead_document_score p) (lead_document_score q).

Global Instance same_rank_dec p q : Decision (same_rank p q).
Proof. unfold same_rank. apply _. Defined.

(** The predictions that rank like [r] appear in [out] in the order they
    have in [input], whatever [r] is. *)
Definition keeps_equal_rank_order (input out : list Prediction) : Prop :=
  ∀ r, filter (same_rank r) out = filter (same_rank r) input.

(** [PredictionDocument(document=s)]: every other field at its default. *)
Definition document_only (s : string) : PredictionDocument :=
  {| index := ""; document_id := ""; document := s; span := None; url := "";
     source := ""; document_score := 0 |}.

(* ===================================================================== *)
(** ** Example data *)
(* ===================================================================== *)

Definition ex_a0 : Attributions :=
  {| topk_question_idx := [0%Z]; topk_context_idx := [2%Z];
     question_tokens :=
       [{| token_index := 0; token_word := "who"; token_score := 0.7 |}];
     context_tokens :=
       [{| token_index := 2; token_word := "Paris"; token_score := 0.9 |}] |}.

Definition ex_a1 : Attributions :=
  {| topk_question_idx := [1%Z]; topk_context_idx := [0%Z];
     question_tokens :=
       [{| token_index := 1; token_word := "is"; token_score := 0.1 |}];
     context_tokens :=
       [{| token_index := 0; token_word := "The"; token_score := 0.2 |}] |}.

Definition ex_prediction (q out : string) (s : Q) : Prediction :=
  {| question := q; prediction_score := s;
     prediction_output := {| output := out; output_score := s |};
     prediction_documents := []; prediction_graph := None;
     attributions := None |}.

(** A prediction whose score is a NaN. *)
Definition ex_nan_prediction (q out : string) : Prediction :=
  {| question := q; prediction_score := NaN 0;
     prediction_output := {| output := out; output_score := NaN 0 |};
     prediction_documents := []; prediction_graph := None;
     attributions := None |}.

(** An unranked list: a high-scored "no answer", then two answers with
    equal keys. *)
Definition ex_predictions : list Prediction :=
  [ ex_prediction "q" NO_ANSWER_FOUND_STRING 0.9;
    ex_prediction "q" "Paris" 0.5;
    ex_prediction "q" "Lyon" 0.5 ].

(** Two candidates, no attributions, no adversarial entry. *)
Definition ex_classification (logits : list (list Q)) : ClassificationOutput :=
  {| mo_questions := None; mo_context := None; mo_logits := Some logits;
     mo_attributions := None; mo_adversarial := None; mo_labels := None;
     mo_lm_subgraph := None; mo_attn_subgraph := None |}.

(** [{"model_outputs": {"logits": [[0.2, 0.9]]}, "attributions": [a0]}],
    the list [[a0]] being the object at reference 0. *)
Definition ex_with_attributions : ClassificationOutput :=
  {| mo_questions := None; mo_context := None; mo_logits := Some [[0.2; 0.9]%Q];
     mo_attributions := Some 0; mo_adversarial := None; mo_labels := None;
     mo_lm_subgraph := None; mo_attn_subgraph := None |}.

Definition ex_heap : heap := {[ 0 := [Some ex_a0] ]}.

Definition ex_adversarial : Adversarial := {| indices := Some [0%Z] |}.

(** [{"model_outputs": {"logits": [[0.1, 0.9]]},
      "adversarial": {"indices": [0]}}] *)
Definition ex_with_adversarial : ClassificationOutput :=
  {| mo_questions := None; mo_context := None; mo_logits := Some [[0.1; 0.9]%Q];
     mo_attributions := None; mo_adversarial := Some (Some ex_adversarial);
     mo_labels := None; mo_lm_subgraph := None; mo_attn_subgraph := None |}.

Definition ex_subgraph : SubGraph := {| nodes := ∅; edges := ∅ |}.

(** The same payload with the entries of the graph strategy: label 1 and
    two subgraphs. *)
Definition ex_graph_with_adversarial : ClassificationOutput :=
  {| mo_questions := None; mo_context := None; mo_logits := Some [[0.1; 0.9]%Q];
     mo_attributions := None; mo_adversarial := Some (Some ex_adversarial);
     mo_labels := Some [1%Z]; mo_lm_subgraph := Some ex_subgraph;
     mo_attn_subgraph := Some ex_subgraph |}.

(** A prediction in mapping form whose document has no "document_score". *)
Definition ex_dict : PredictionDict :=
  {| dict_question := "q"; dict_prediction_score := 0.5;
     dict_prediction_output := {| output := "Paris"; output_score := 0.5 |};
     dict_prediction_documents :=
       [{| dict_document := "d"; dict_document_score := None |}] |}.

(** [{"answers": [[{"answer": "Paris", "start": 0, "end": 5,
      "score": 0.8}]]}] *)
Definition ex_question_answering : QuestionAnsweringOutput :=
  {| qa_questions := None;
     qa_answers :=
       Some [[{| answer := "Paris"; start := 0; end_ := 5; score := 0.8 |}]];
     qa_attributions := None; qa_adversarial := None |}.

(** [{"generated_texts": [["Paris"]]}] *)
Definition ex_generation : GenerationOutput :=
  {| gen_generated_texts := Some [["Paris"]]; gen_attributions := None |}.

(* ===================================================================== *)
(** ** Statements about the strategies *)
(* ===================================================================== *)

(** A prediction made of a question, documents, a score and an answer: no
    graph, no attributions. *)
Definition answer_prediction (q : string) (docs : list PredictionDocument)
    (s : Q) (a : string) : Prediction :=
  {| question := q; prediction_score := s;
     prediction_output := {| output := a; output_score := s |};
     prediction_documents := docs; prediction_graph := None;
     attributions := None |}.

(** The documents the classification strategy attaches to every prediction
    for a context that is [None] or a string. *)
Definition context_documents (context : text_value) : list PredictionDocument :=
  match context with
  | VStr s => [document_only s]
  | _ => []
  end.

(** The output text the extractive QA strategy gives a candidate. *)
Definition answer_text (a : Answer) : string :=
  if String.eqb (answer a) "" then NO_ANSWER_FOUND_STRING else answer a.

(** The document the extractive QA strategy attaches to a candidate. *)
Definition span_document (s : string) (a : Answer) (x : Q) : PredictionDocument :=
  {| index := ""; document_id := ""; document := s;
     span := Some [start a; end_ a]; url := ""; source := "";
     document_score := x |}.


(** No two positions hold equal scores. *)
Definition pairwise_distinct (scores : list Q) : Prop :=
  ∀ i j x y,
    scores !! i = Some x → scores !! j = Some y → (x == y)%Q → i = j.

(** The number of scores above [x]. *)
Definition scores_above (scores : list Q) (x : Q) : nat :=
  length (filter (λ y, Qlt_bool x y) scores).


(** Two candidates, the second without text. *)
Definition ex_paris : Answer :=
  {| answer := "Paris"; start := 0; end_ := 5; score := 0.8 |}.

Definition ex_no_answer : Answer :=
  {| answer := ""; start := 0; end_ := 0; score := 0.1 |}.

(** [{"answers": [[{"answer": "Paris", ...}, {"answer": "", ...}]]}] *)
Definition ex_two_candidates : QuestionAnsweringOutput :=
  {| qa_questions := None; qa_answers := Some [[ex_paris; ex_no_answer]];
     qa_attributions := None; qa_adversarial := None |}.

(** [{"answers": [[]]}] *)
Definition ex_empty_group : QuestionAnsweringOutput :=
  {| qa_questions := None; qa_answers := Some [[]];
     qa_attributions := None; qa_adversarial := None |}.

(** The entry of [d] under [name] for the context at position [i]. *)
Definition entry_at (d : AttributionColumns) (name : string) (i : nat)
  : option (list attribution_item) :=
  col ← d !! name; col !! i.

(** Attributions for one context. *)
Definition ex_columns : AttributionColumns :=
  {[ "topk_question_idx" := [[IntItem 0]];
     "topk_context_idx" := [[IntItem 2]];
     "question_tokens" := [TokenItem <$> question_tokens ex_a0];
     "context_tokens" := [TokenItem <$> context_tokens ex_a0] ]}.

(** The prediction carries a graph. *)
Definition has_graph (p : Prediction) : Prop := prediction_graph p ≠ None.

Global Instance has_graph_dec p : Decision (has_graph p).
Proof. unfold has_graph. destruct (prediction_graph p); [left|right]; naive_solver. Defined.

(* ===================================================================== *)
(** ** Facts about the sorting primitives *)
(* ===================================================================== *)

Lemma StronglySorted_reverse {A} (R : relation A) l :
  StronglySorted R l → StronglySorted (flip R) (reverse l).
Proof.
  induction 1 as [|x l Hl IH Hx]; [constructor|].
  rewrite reverse_cons. apply StronglySorted_app_2; [|done|repeat constructor].
  intros y x' Hy ->%list_elem_of_singleton.
  rewrite elem_of_reverse in Hy. rewrite Forall_forall in Hx. unfold flip. by apply Hx.
Qed.

Lemma StronglySorted_lookup {A} (R : relation A) l i j x y :
  StronglySorted R l → i < j → l !! i = Some x → l !! j = Some y → R x y.
Proof.
  intros Hl. revert i j. induction Hl as [|z l Hl IH Hz]; intros i j Hij Hi Hj.
  - by rewrite lookup_nil in Hi.
  - destruct j as [|j]; [lia|]. simpl in Hj. destruct i as [|i]; simpl in Hi.
    + injection Hi as ->. rewrite Forall_forall in Hz.
      apply Hz. by eapply list_elem_of_lookup_2.
    + apply (IH i j); [lia|done..].
Qed.

Section stable_sort_facts.
Context {A : Type} (lt : A → A → bool).

Lemma insert_sorted_perm x l : insert_sorted lt x l ≡ₚ x :: l.
Proof.
  induction l as [|y l IH]; simpl; [done|].
  destruct (lt y x); [|done]. rewrite IH. apply Permutation_swap.
Qed.

Lemma stable_sort_perm l : stable_sort lt l ≡ₚ l.
Proof.
  induction l as [|x l IH]; simpl; [done|].
  by rewrite insert_sorted_perm, IH.
Qed.

Lemma sorted_perm r l : sorted lt r l ≡ₚ l.
Proof.
  destruct r; simpl; [|apply stable_sort_perm].
  by rewrite reverse_Permutation, stable_sort_perm, reverse_Permutation.
Qed.

Section strict_weak_order.
(** [lt] is a strict weak order on the elements that are [ordered]. *)
Context (ordered : A → Prop).
Hypothesis lt_asym :
  ∀ a b, ordered a → ordered b → lt a b = true → lt b a = false.
Hypothesis lt_negtrans :
  ∀ a b c, ordered a → ordered b → ordered c →
           lt a b = false → lt b c = false → lt a c = false.

Lemma insert_sorted_ascending x l :
  ordered x → Forall ordered l →
  StronglySorted (λ a b, lt b a = false) l →
  StronglySorted (λ a b, lt b a = false) (insert_sorted lt x l).
Proof.
  intros Hx Hl HS. induction HS as [|y l HS IH Hy]; simpl; [by repeat constructor|].
  apply Forall_cons_1 in Hl as [Hoy Hol].
  destruct (lt y x) eqn:Hyx.
  - constructor; [by apply IH|].
    rewrite insert_sorted_perm. constructor; [by apply lt_asym|done].
  - constructor; [by constructor|].
    constructor; [done|].
    rewrite Forall_forall in Hy, Hol. apply Forall_forall. intros z Hz.
    apply (lt_negtrans z y x); auto.
Qed.

Lemma stable_sort_ascending l :
  Forall ordered l → StronglySorted (λ a b, lt b a = false) (stable_sort lt l).
Proof.
  induction l as [|x l IH]; simpl; [constructor|].
  intros [Hx Hl]%Forall_cons_1. apply insert_sorted_ascending; [done| |by apply IH].
  by rewrite stable_sort_perm.
Qed.

(** With [reverse=True] no element is followed by a larger one. *)
Lemma sorted_reverse_descending l :
  Forall ordered l → StronglySorted (λ a b, lt a b = false) (sorted lt true l).
Proof.
  intros Hl. simpl. apply (StronglySorted_reverse (λ a b, lt b a = false)).
  apply stable_sort_ascending. by rewrite reverse_Permutation.
Qed.
End strict_weak_order.

Section stability.
Context (P : A → Prop) `{!∀ x, Decision (P x)}.
(** [P] selects elements none of which is below another. *)
Hypothesis P_class : ∀ x y, P x → P y → lt y x = false.

Lemma filter_insert_sorted x l :
  filter P (insert_sorted lt x l) = filter P (x :: l).
Proof.
  induction l as [|y l IH]; simpl; [done|].
  destruct (lt y x) eqn:Hyx; [|done].
  rewrite (filter_cons _ y), IH, !filter_cons.
  destruct (decide (P y)) as [Hy|]; [|done].
  destruct (decide (P x)) as [Hx|]; [|done].
  rewrite (P_class x y Hx Hy) in Hyx. done.
Qed.

Lemma filter_stable_sort l : filter P (stable_sort lt l) = filter P l.
Proof.
  induction l as [|x l IH]; simpl; [done|].
  by rewrite filter_insert_sorted, !filter_cons, IH.
Qed.

(** Sorting, in either direction, keeps the elements of such a class in
    their input order. *)
Lemma filter_sorted r l : filter P (sorted lt r l) = filter P l.
Proof.
  destruct r; simpl; [|apply filter_stable_sort].
  by rewrite filter_reverse, filter_stable_sort, filter_reverse,
    reverse_involutive.
Qed.
End stability.

Section two_groups.
(** The elements fall into a low and a high group, and [lt] puts every low
    element below every high one, whatever it does within a group. *)
Context (high : A → bool).
Hypothesis low_lt_high : ∀ a b, high a = false → high b = true → lt a b = true.
Hypothesis high_not_lt_low :
  ∀ a b, high a = true → high b = false → lt a b = false.

Lemma insert_sorted_groups x l1 l2 :
  Forall (λ a, high a = false) l1 → Forall (λ a, high a = true) l2 →
  ∃ l1' l2', insert_sorted lt x (l1 ++ l2) = l1' ++ l2' ∧
             Forall (λ a, high a = false) l1' ∧ Forall (λ a, high a = true) l2'.
Proof.
  intros Hl1 Hl2. induction Hl1 as [|y l1 Hy Hl1 IH].
  - destruct (high x) eqn:Hx.
    + exists [], (insert_sorted lt x l2). split_and!; [done..|].
      rewrite insert_sorted_perm. by constructor.
    + exists [x], l2. split_and!; [|by repeat constructor|done].
      destruct Hl2 as [|y l2 Hy Hl2]; simpl; [done|].
      by rewrite (high_not_lt_low y x Hy Hx).
  - simpl. destruct (lt y x) eqn:Hyx.
    + destruct IH as (l1' & l2' & -> & Hl1' & Hl2').
      exists (y :: l1'), l2'. split_and!; [done|by constructor|done].
    + exists (x :: y :: l1), l2. split_and!; [done| |done].
      repeat constructor; [|done..].
      destruct (high x) eqn:Hx; [|done].
      by rewrite (low_lt_high y x Hy Hx) in Hyx.
Qed.

Lemma stable_sort_groups l :
  ∃ l1 l2, stable_sort lt l = l1 ++ l2 ∧
           Forall (λ a, high a = false) l1 ∧ Forall (λ a, high a = true) l2.
Proof.
  induction l as [|x l (l1 & l2 & IH & Hl1 & Hl2)]; simpl.
  - by exists [], [].
  - rewrite IH. by apply insert_sorted_groups.
Qed.

(** With [reverse=True] every high element stands before every low one. *)
Lemma sorted_reverse_groups l i j x y :
  sorted lt true l !! i = Some x → sorted lt true l !! j = Some y →
  high x = false → high y = true → j < i.
Proof.
  simpl. destruct (stable_sort_groups (reverse l)) as (l1 & l2 & -> & Hl1 & Hl2).
  rewrite reverse_app. intros Hx Hy Hlow Hhigh.
  rewrite Forall_forall in Hl1, Hl2.
  destruct (decide (j < length (reverse l2))) as [Hj|Hj].
  - destruct (decide (i < length (reverse l2))) as [Hi|Hi]; [|lia].
    rewrite lookup_app_l in Hx by done.
    apply list_elem_of_lookup_2, elem_of_reverse, Hl2 in Hx. congruence.
  - rewrite lookup_app_r in Hy by lia.
    apply list_elem_of_lookup_2, elem_of_reverse, Hl1 in Hy. congruence.
Qed.
End two_groups.

Section adjacent.
(** Asymmetry of [lt] alone keeps neighbours in order. *)
Hypothesis lt_asym : ∀ a b, lt a b = true → lt b a = false.

Lemma insert_sorted_Sorted x l :
  Sorted (λ a b, lt b a = false) l →
  Sorted (λ a b, lt b a = false) (insert_sorted lt x l).
Proof.
  induction 1 as [|y l Hl IH Hy]; simpl; [by repeat constructor|].
  destruct (lt y x) eqn:Hyx.
  - constructor; [done|].
    destruct Hy as [|z l Hz]; simpl.
    + constructor. by apply lt_asym.
    + destruct (lt z x); constructor; [done|by apply lt_asym].
  - repeat constructor; done.
Qed.

Lemma stable_sort_Sorted l : Sorted (λ a b, lt b a = false) (stable_sort lt l).
Proof.
  induction l; simpl; [constructor|by apply insert_sorted_Sorted].
Qed.
End adjacent.

(** Sorting leaves a list whose neighbours are in order as it is. *)
Lemma stable_sort_Sorted_id l :
  Sorted (λ a b, lt b a = false) l → stable_sort lt l = l.
Proof.
  induction 1 as [|x l Hl IH Hx]; simpl; [done|].
  rewrite IH. destruct Hx as [|y l Hy]; simpl; [done|]. by rewrite Hy.
Qed.

(** Sorting what has been sorted changes nothing. *)
Lemma sorted_idempotent r l :
  (∀ a b, lt a b = true → lt b a = false) →
  sorted lt r (sorted lt r l) = sorted lt r l.
Proof.
  intros Hasym. destruct r; simpl.
  - rewrite reverse_involutive. f_equal.
    apply stable_sort_Sorted_id. by apply stable_sort_Sorted.
  - apply stable_sort_Sorted_id. by apply stable_sort_Sorted.
Qed.
End stable_sort_facts.

(* ===================================================================== *)
(** ** The composite key *)
(* ===================================================================== *)

Lemma Qlt_bool_true x y : Qlt_bool x y = true ↔ (x < y)%Q.
Proof.
  unfold Qlt_bool. rewrite negb_true_iff, <-not_true_iff_false, Qle_bool_iff.
  split; [apply Qnot_le_lt|apply Qlt_not_le].
Qed.

Lemma Qlt_bool_false x y : Qlt_bool x y = false ↔ (y <= x)%Q.
Proof. unfold Qlt_bool. by rewrite negb_false_iff, Qle_bool_iff. Qed.

Lemma Qeq_bool_false x y : Qeq_bool x y = false ↔ ¬ (x == y)%Q.
Proof. by rewrite <-not_true_iff_false, Qeq_bool_iff. Qed.

(** Case analysis on every comparison of a goal about keys, leaving linear
    arithmetic over the rationals. *)
Ltac key_arith :=
  unfold key_lt, key_eq in *;
  repeat match goal with x : pyfloat |- _ => destruct x end;
  simpl in *;
  repeat match goal with b : bool |- _ => destruct b; simpl in * end;
  try done;
  repeat match goal with
    | H : context [negb (Qeq_bool ?x ?y)] |- _ =>
        let E := fresh "E" in destruct (Qeq_bool x y) eqn:E; simpl in H
    | |- context [negb (Qeq_bool ?x ?y)] =>
        let E := fresh "E" in destruct (Qeq_bool x y) eqn:E; simpl
    | H : context [negb (bool_decide ?P)] |- _ =>
        let E := fresh "E" in destruct (bool_decide P) eqn:E; simpl in H
    | |- context [negb (bool_decide ?P)] =>
        let E := fresh "E" in destruct (bool_decide P) eqn:E; simpl
    | H : _ && _ = true |- _ => apply andb_true_iff in H as [? ?]
    end;
  repeat match goal with
    | H : bool_decide _ = true |- _ => apply bool_decide_eq_true_1 in H
    | H : bool_decide _ = false |- _ => apply bool_decide_eq_false_1 in H
    | H : Qeq_bool _ _ = true |- _ => apply Qeq_bool_iff in H
    | H : Qeq_bool _ _ = false |- _ => apply Qeq_bool_false in H
    | H : Qlt_bool _ _ = true |- _ => apply Qlt_bool_true in H
    | H : Qlt_bool _ _ = false |- _ => apply Qlt_bool_false in H
    | |- Qlt_bool _ _ = true => apply Qlt_bool_true
    | |- Qlt_bool _ _ = false => apply Qlt_bool_false
    end;
  try done; try congruence; try lra.

(** Asymmetry holds of every two keys, also of keys with a NaN. *)
Lemma key_lt_asym (k1 k2 : sort_key) : key_lt k1 k2 = true → key_lt k2 k1 = false.
Proof.
  destruct k1 as [[a1 s1] d1], k2 as [[a2 s2] d2]. intros H. key_arith.
Qed.

(** On keys made of numbers, [<] is a strict weak order. *)
Lemma key_lt_negtrans (a1 a2 a3 : bool) (s1 d1 s2 d2 s3 d3 : Q) :
  key_lt (a1, Num s1, Num d1) (a2, Num s2, Num d2) = false →
  key_lt (a2, Num s2, Num d2) (a3, Num s3, Num d3) = false →
  key_lt (a1, Num s1, Num d1) (a3, Num s3, Num d3) = false.
Proof. intros H1 H2. key_arith. Qed.

(** What it means for a key made of numbers not to be below another. *)
Lemma key_not_lt (a1 a2 : bool) (s1 d1 s2 d2 : Q) :
  key_lt (a1, Num s1, Num d1) (a2, Num s2, Num d2) = false ↔
  (a2 = true → a1 = true) ∧
  (a1 = a2 → (s2 <= s1)%Q ∧ (s1 == s2 → d2 <= d1)%Q).
Proof.
  split.
  - intros H. split; [intros ->|intros ->; split; [|intros Heq]]; key_arith.
  - intros [Ha Hs].
    destruct a1, a2; try done; try (by specialize (Ha eq_refl));
      destruct (Hs eq_refl) as [? ?]; key_arith.
Qed.

(** A key that records an answer is above every key that records none. *)
Lemma key_lt_answer_found (s1 d1 s2 d2 : pyfloat) :
  key_lt (false, s1, d1) (true, s2, d2) = true ∧
  key_lt (true, s2, d2) (false, s1, d1) = false.
Proof. done. Qed.

Lemma answer_found_false p :
  answer_found (output (prediction_output p)) = false ↔ no_answer p.
Proof.
  unfold answer_found, no_answer. simpl.
  rewrite negb_false_iff, orb_false_r, orb_true_iff, !String.eqb_eq. done.
Qed.

Lemma answer_found_no_answer p :
  answer_found (output (prediction_output p)) = negb (bool_decide (no_answer p)).
Proof.
  case_bool_decide as H; simpl.
  - by apply answer_found_false.
  - apply not_false_iff_true. by rewrite answer_found_false.
Qed.

(** The key of a prediction, component by component. *)
Lemma prediction_key_components p :
  prediction_key p
  = (negb (bool_decide (no_answer p)), prediction_score p, lead_document_score p).
Proof.
  unfold prediction_key, lead_document_score.
  by rewrite answer_found_no_answer.
Qed.

Lemma ranked_by_numbers_key p :
  ranked_by_numbers p →
  ∃ s d : Q, prediction_key p = (negb (bool_decide (no_answer p)), Num s, Num d).
Proof.
  intros [[s Hs] [d Hd]]. exists s, d. by rewrite prediction_key_components, Hs, Hd.
Qed.

(** Between predictions ranked by numbers, not being below in the key is
    ranking at least as high. *)
Lemma key_not_lt_ranks_at_least p q :
  ranked_by_numbers p → ranked_by_numbers q →
  key_lt (prediction_key p) (prediction_key q) = false → ranks_at_least p q.
Proof.
  intros Hp Hq. unfold ranks_at_least.
  destruct Hp as [[sp Hsp] [dp Hdp]], Hq as [[sq Hsq] [dq Hdq]].
  rewrite !prediction_key_components, Hsp, Hdp, Hsq, Hdq.
  intros [Ha Hs]%key_not_lt. simpl. split.
  - intros Hno. destruct (decide (no_answer q)) as [|Hq]; [done|].
    rewrite (bool_decide_eq_false_2 _ Hq), (bool_decide_eq_true_2 _ Hno) in Ha.
    by specialize (Ha eq_refl).
  - intros Hiff. apply Hs. f_equal. by apply bool_decide_ext.
Qed.

(** Predictions that rank like the same prediction are not below one
    another. *)
Lemma same_rank_not_lt r p q :
  same_rank r p → same_rank r q →
  key_lt (prediction_key q) (prediction_key p) = false.
Proof.
  intros (Hap & Hsp & Hdp) (Haq & Hsq & Hdq).
  rewrite !prediction_key_components.
  rewrite (bool_decide_ext (no_answer q) (no_answer p)) by (by rewrite <-Hap, <-Haq).
  destruct (prediction_score r), (prediction_score p), (prediction_score q),
    (lead_document_score r), (lead_document_score p), (lead_document_score q);
    try done.
  simpl in *. apply key_not_lt. split; [done|]. intros _. split; lra.
Qed.

(* ===================================================================== *)
(** ** The envelope and its root validator *)
(* ===================================================================== *)

Lemma new_QueryOutput_adversarial preds adv :
  adversarial (new_QueryOutput preds adv) = optional_field adv.
Proof. unfold new_QueryOutput, sort_predictions. simpl. by destruct adv. Qed.

Lemma new_QueryOutput_sorted preds adv :
  adversarial (new_QueryOutput preds adv) = None →
  predictions (new_QueryOutput preds adv)
  = sorted_by_key key_lt prediction_key true preds.
Proof.
  rewrite new_QueryOutput_adversarial. unfold new_QueryOutput, sort_predictions.
  simpl. by intros ->.
Qed.

Lemma new_QueryOutput_unsorted preds a :
  new_QueryOutput preds (Passed a)
  = {| predictions := preds; adversarial := Some a |}.
Proof. done. Qed.

(** Sorting predictions that are ranked by numbers ranks them. *)
Lemma sorted_ranked preds :
  Forall ranked_by_numbers preds →
  ranked (sorted_by_key key_lt prediction_key true preds).
Proof.
  intros Hnum i j p q Hij Hp Hq.
  assert (Hout : Forall ranked_by_numbers
                   (sorted_by_key key_lt prediction_key true preds)).
  { unfold sorted_by_key. by rewrite sorted_perm. }
  rewrite Forall_forall in Hout.
  apply key_not_lt_ranks_at_least;
    [by eapply Hout, list_elem_of_lookup_2..|].
  apply (StronglySorted_lookup
           (λ a b, key_lt (prediction_key a) (prediction_key b) = false)
           (sorted_by_key key_lt prediction_key true preds) i j p q); [|done..].
  apply (sorted_reverse_descending
           (λ a b, key_lt (prediction_key a) (prediction_key b))
           ranked_by_numbers); [| |done].
  - intros a b _ _. apply key_lt_asym.
  - intros a b c (sa & da & ->)%ranked_by_numbers_key
      (sb & db & ->)%ranked_by_numbers_key (sc & dc & ->)%ranked_by_numbers_key.
    apply key_lt_negtrans.
Qed.

Lemma sorted_keeps_equal_rank_order preds :
  keeps_equal_rank_order preds (sorted_by_key key_lt prediction_key true preds).
Proof.
  intros r. apply filter_sorted.
  intros x y Hx Hy. by apply (same_rank_not_lt r).
Qed.

(** C1, amended. Every envelope constructed without adversarial info from
    predictions whose prediction scores and lead document scores are
    numbers (none is a NaN) holds a permutation of those predictions that
    is ranked: an answer stands before no answer, within each of the two
    groups a higher prediction score stands first, and among equal
    prediction scores a higher lead document score stands first, the three
    being the components of the key that [sort_predictions_key] computes;
    and predictions that agree in all three components keep the relative
    order of the input list. *)
Theorem sort_predictions_ranked_and_stable
    (preds : list Prediction) (adv : kwarg Adversarial) :
  adversarial (new_QueryOutput preds adv) = None →
  Forall ranked_by_numbers preds →
  (∀ p, sort_predictions_key (OfPrediction p)
        = Ok (negb (bool_decide (no_answer p)), prediction_score p,
              lead_document_score p)) ∧
  predictions (new_QueryOutput preds adv) ≡ₚ preds ∧
  ranked (predictions (new_QueryOutput preds adv)) ∧
  keeps_equal_rank_order preds (predictions (new_QueryOutput preds adv)).
Proof.
  intros Hadv Hnum. rewrite (new_QueryOutput_sorted _ _ Hadv). split_and!.
  - intros p. simpl. by rewrite prediction_key_components.
  - apply sorted_perm.
  - by apply sorted_ranked.
  - apply sorted_keeps_equal_rank_order.
Qed.

(** C1 as stated fails on the code: a prediction score that is a NaN
    compares false with every score, so the list of predictions scored
    1, NaN and 2 is taken to be in order and comes back as it was given,
    with the score 1 ahead of the score 2. *)
Lemma sort_predictions_nan_counterexample :
  let preds := [ ex_prediction "q" "a" 1; ex_nan_prediction "q" "b";
                 ex_prediction "q" "c" 2 ] in
  adversarial (new_QueryOutput preds Omitted) = None ∧
  predictions (new_QueryOutput preds Omitted) = preds ∧
  sort_predictions_key (OfPrediction (ex_prediction "q" "a" 1))
  = Ok (true, Num 1, Num 1) ∧
  sort_predictions_key (OfPrediction (ex_prediction "q" "c" 2))
  = Ok (true, Num 2, Num 1) ∧
  key_lt (true, Num 1, Num 1) (true, Num 2, Num 1) = true ∧
  ¬ ranked (predictions (new_QueryOutput preds Omitted)).
Proof.
  split_and!; try reflexivity.
  intros H.
  destruct (H 0 2 (ex_prediction "q" "a" 1) (ex_prediction "q" "c" 2))
    as [_ Hs]; [lia|reflexivity..|].
  assert (Hs' : float_le (Num 2) (Num 1)).
  { apply Hs. split; intros [Hno|Hno]; discriminate Hno. }
  simpl in Hs'. lra.
Qed.

(** C7. In an envelope constructed without adversarial info, a prediction
    whose output is the empty string or the sentinel stands strictly after
    every prediction with another output, whatever the scores. *)
Theorem no_answer_ranked_last
    (preds : list Prediction) (adv : kwarg Adversarial) (i j : nat)
    (p q : Prediction) :
  adversarial (new_QueryOutput preds adv) = None →
  predictions (new_QueryOutput preds adv) !! i = Some p →
  predictions (new_QueryOutput preds adv) !! j = Some q →
  no_answer p → ¬ no_answer q →
  j < i.
Proof.
  intros Hadv. rewrite (new_QueryOutput_sorted _ _ Hadv).
  intros Hp Hq Hno Hyes.
  apply answer_found_false in Hno.
  rewrite <-answer_found_false, not_false_iff_true in Hyes.
  apply (sorted_reverse_groups
           (λ a b, key_lt (prediction_key a) (prediction_key b))
           (λ a, answer_found (output (prediction_output a)))
           ) with (l := preds) (x := p) (y := q); try done.
  - intros a b Ha Hb. unfold prediction_key. rewrite Ha, Hb.
    apply key_lt_answer_found.
  - intros a b Ha Hb. unfold prediction_key. rewrite Ha, Hb.
    apply key_lt_answer_found.
Qed.

(* ===================================================================== *)
(** ** Loops *)
(* ===================================================================== *)

Lemma for_each_total {A B} (f : A → result B) (g : A → B) xs :
  (∀ x, f x = Ok (g x)) → for_each f xs = Ok (g <$> xs).
Proof.
  intros Hf. induction xs as [|x xs IH]; simpl; [done|].
  by rewrite Hf, IH.
Qed.

Lemma for_each_cons_raises {A B} (f : A → result B) x xs :
  raises (f x) ∨ raises (for_each f xs) → raises (for_each f (x :: xs)).
Proof.
  simpl. intros [[e ->]|[e He]]; [by exists e|].
  destruct (f x) as [y|e']; simpl; [|by exists e'].
  rewrite He. by exists e.
Qed.

(** A loop that completes produced one outcome per element, in order. *)
Lemma for_each_lookup {A B} (f : A → result B) xs ys :
  for_each f xs = Ok ys →
  length ys = length xs ∧
  ∀ i y, ys !! i = Some y → ∃ x, xs !! i = Some x ∧ f x = Ok y.
Proof.
  revert ys. induction xs as [|x xs IH]; simpl; intros ys Hys.
  - injection Hys as <-. split; [done|]. intros i y. by rewrite lookup_nil.
  - destruct (f x) as [y0|] eqn:Hx; simpl in Hys; [|done].
    destruct (for_each f xs) as [ys0|] eqn:Hxs; simpl in Hys; [|done].
    injection Hys as <-. destruct (IH ys0 eq_refl) as [Hlen Hall].
    split; [simpl; lia|]. intros [|i] y Hy; simpl in *.
    + injection Hy as <-. eauto.
    + eauto.
Qed.

Lemma fmap_const_seq {A} (x : A) j n : (λ _, x) <$> seq j n = replicate n x.
Proof. revert j. induction n as [|n IH]; intros j; simpl; [done|]. by rewrite IH. Qed.

(* ===================================================================== *)
(** ** Context-to-documents expansion *)
(* ===================================================================== *)

Lemma new_PredictionDocument_only (s : string) :
  new_PredictionDocument (Passed s) Omitted Omitted = Ok (document_only s).
Proof. done. Qed.

(** C4. With expected count [n]: [None] gives [n] empty document lists; a
    string gives [n] lists holding one document whose text is the string;
    a list of another length raises [ValueError]; a value of any other type
    raises [TypeError]; a list of length [n] gives one single-document list
    per entry; and nothing else raises. *)
Theorem prediction_documents_iter_from_context_cases (n : nat) :
  _prediction_documents_iter_from_context n (inl VNone) = Ok (replicate n []) ∧
  (∀ s, document (document_only s) = s ∧
        _prediction_documents_iter_from_context n (inl (VStr s))
        = Ok (replicate n [document_only s])) ∧
  (∀ l, length l ≠ n →
        _prediction_documents_iter_from_context n (inl (VList l))
        = Raise ValueError) ∧
  (∀ ty, _prediction_documents_iter_from_context n (inr ty) = Raise TypeError) ∧
  (∀ l, length l = n →
        _prediction_documents_iter_from_context n (inl (VList l))
        = Ok ((λ c, [document_only c]) <$> l)) ∧
  (∀ context e,
      _prediction_documents_iter_from_context n context = Raise e →
      (∃ l, context = inl (VList l) ∧ length l ≠ n ∧ e = ValueError) ∨
      (∃ ty, context = inr ty ∧ e = TypeError)).
Proof.
  assert (Hstr : ∀ s, _prediction_documents_iter_from_context n (inl (VStr s))
                      = Ok (replicate n [document_only s])).
  { intros s. simpl.
    rewrite (for_each_total _ (λ _, [document_only s])); [|done].
    by rewrite fmap_const_seq. }
  assert (Hlist : ∀ l, length l = n →
            _prediction_documents_iter_from_context n (inl (VList l))
            = Ok ((λ c, [document_only c]) <$> l)).
  { intros l Hl. simpl. rewrite bool_decide_eq_false_2 by (intros ?; done).
    by apply for_each_total. }
  split_and!; try done.
  - intros l Hl. simpl. by rewrite bool_decide_eq_true_2.
  - intros [[| s | l] | ty] e.
    + done.
    + by rewrite Hstr.
    + destruct (decide (length l = n)) as [Hl|Hl].
      * by rewrite (Hlist l Hl).
      * simpl. rewrite bool_decide_eq_true_2 by done.
        intros [= <-]. left. by exists l.
    + intros [= <-]. right. by exists ty.
Qed.

(** The third scenario of the specification: two contexts for three
    predictions. *)
Lemma prediction_documents_iter_from_context_witness :
  _prediction_documents_iter_from_context 3 (inl (VList ["A"; "B"]))
  = Raise ValueError.
Proof.
  apply (prediction_documents_iter_from_context_cases 3). simpl. lia.
Defined.

(* ===================================================================== *)
(** ** Explanation alignment *)
(* ===================================================================== *)

Lemma enumerate_lookup {A} (l : list A) k i x :
  enumerate l !! k = Some (i, x) ↔ i = k ∧ l !! k = Some x.
Proof.
  unfold enumerate. rewrite lookup_zip_with_Some. split.
  - intros (i' & x' & [= -> ->] & Hi%lookup_seq & Hx). by destruct Hi as [-> _].
  - intros [-> Hx]. exists k, x. split_and!; [done| |done].
    apply lookup_seq. split; [done|]. by eapply lookup_lt_Some.
Qed.

Lemma elem_of_enumerate {A} (l : list A) i x :
  (i, x) ∈ enumerate l ↔ l !! i = Some x.
Proof.
  rewrite list_elem_of_lookup. split.
  - intros [k Hk]. apply enumerate_lookup in Hk as [-> Hx]. done.
  - intros Hx. exists i. by apply enumerate_lookup.
Qed.

Lemma fst_enumerate {A} (l : list A) : (enumerate l).*1 = seq 0 (length l).
Proof. unfold enumerate. apply fst_zip. by rewrite length_seq. Qed.

Lemma argsort_perm scores : argsort scores ≡ₚ seq 0 (length scores).
Proof.
  unfold argsort, sorted_by_key. by rewrite sorted_perm, fst_enumerate.
Qed.

(** What a call of the helper returns and what it leaves in the heap. *)
Lemma extend_and_sort_run scores l fill attrs (h : heap) :
  h !! l = Some attrs →
  extend_and_sort_attributions_to_scores scores l fill h
  = if bool_decide (length attrs < length scores) then
      let extended := attrs ++ replicate (length scores - length attrs) fill in
      (Ok (sorted_by_key Nat.ltb fst false
             (zip (reverse (argsort scores)) extended)).*2,
       <[l := extended]> h)
    else (Ok attrs, h).
Proof.
  intros Hl. unfold extend_and_sort_attributions_to_scores.
  unfold mbind, M_bind, mret, M_ret, load, extend. rewrite Hl. simpl.
  case_bool_decide as Hz; case_bool_decide as Hn; try lia; [|done].
  rewrite lookup_insert_eq. simpl.
  replace (Z.to_nat (Z.of_nat (length scores) - Z.of_nat (length attrs)))
    with (length scores - length attrs) by lia.
  by rewrite !Hl.
Qed.

(** C3 at the failing input: scores [0.2, 0.9] with attributions
    [a0, a1].  The highest score is at position 1, yet the helper returns
    the list as it was given: the attribution originally at position 0 is
    still at position 0, and position 1 holds [a1].  With fewer
    attributions than scores the helper does re-order: for scores
    [0.2, 0.9, 0.5] and attributions [a0] it returns [fill, a0, fill]. *)
Theorem extend_and_sort_attributions_unsorted_at_equal_length :
  argmax [0.2; 0.9]%Q = Ok 1 ∧
  (extend_and_sort_attributions_to_scores [0.2; 0.9]%Q 0 None
     {[ 0 := [Some ex_a0; Some ex_a1] ]}).1
  = Ok [Some ex_a0; Some ex_a1] ∧
  [Some ex_a0; Some ex_a1] !! 1 ≠ Some (Some ex_a0) ∧
  (extend_and_sort_attributions_to_scores [0.2; 0.9; 0.5]%Q 0 None ex_heap).1
  = Ok [None; Some ex_a0; None].
Proof. split_and!; [reflexivity..|discriminate|reflexivity]. Qed.

(* ===================================================================== *)
(** ** Effects on the payload *)
(* ===================================================================== *)

(** The helper appends to the caller's list object whenever that list is
    shorter than the scores, and touches no other object. *)
Lemma extend_and_sort_heap scores l fill attrs (h : heap) :
  h !! l = Some attrs →
  (extend_and_sort_attributions_to_scores scores l fill h).2
  = if bool_decide (length attrs < length scores)
    then <[l := attrs ++ replicate (length scores - length attrs) fill]> h
    else h.
Proof.
  intros Hl. rewrite (extend_and_sort_run _ _ _ _ _ Hl). by case_bool_decide.
Qed.

(** C9 at the failing input: [from_sequence_classification("q", ["a", "b"],
    {"model_outputs": {"logits": [[0.2, 0.9]]}, "attributions": [a0]})]
    returns an envelope, and the list under the payload's "attributions"
    key, [[a0]] before the call, is [[a0, None]] after it. *)
Theorem from_sequence_classification_mutates_payload :
  let run := from_sequence_classification (VStr "q") ["a"; "b"]
               ex_with_attributions VNone ex_heap in
  (∃ envelope, run.1 = Ok envelope) ∧
  ex_heap !! 0 = Some [Some ex_a0] ∧
  run.2 !! 0 = Some [Some ex_a0; None].
Proof. split_and!; [eexists|..]; reflexivity. Qed.

(* ===================================================================== *)
(** ** Classification strategy *)
(* ===================================================================== *)

Lemma zip_longest5_length {A B C D E}
    (a : list A) (b : list B) (c : list C) (d : list D) (e : list E) :
  length (zip_longest5 a b c d e)
  = max_list [length a; length b; length c; length d; length e].
Proof. unfold zip_longest5. by rewrite length_fmap, length_seq. Qed.

Lemma zip_longest5_lookup {A B C D E}
    (a : list A) (b : list B) (c : list C) (d : list D) (e : list E) i row :
  zip_longest5 a b c d e !! i = Some row →
  row = (a !! i, b !! i, c !! i, d !! i, e !! i).
Proof.
  unfold zip_longest5. rewrite list_lookup_fmap.
  destruct (seq _ _ !! i) as [k|] eqn:Hk; simpl; [|done].
  apply lookup_seq in Hk as [-> _]. by intros [= <-].
Qed.

(** A row is turned into a prediction only if none of its first four
    components is the fill value; the prediction carries them unchanged. *)
Lemma classification_prediction_ok row p :
  classification_prediction row = Ok p →
  ∃ q s a docs attr,
    row = (Some q, Some s, Some a, Some docs, attr) ∧
    question p = q ∧ prediction_score p = s ∧
    prediction_output p = {| output := a; output_score := s |} ∧
    prediction_documents p = docs.
Proof.
  destruct row as [[[[[q|] [s|]] [a|]] [docs|]] attr]; simpl; try done.
  destruct attr as [[a'|]|]; intros [= <-]; eauto 10.
Qed.

(** What the loop of the classification strategy leaves in [predictions]:
    one prediction per candidate, the [i]-th built from the [i]-th logit
    and the [i]-th answer. *)
Lemma classification_predictions_positional
    questions answers m context (h h' : heap) preds :
  classification_predictions questions answers m context h = (Ok preds, h') →
  ∃ logits0,
    first_logits m = Ok logits0 ∧
    length preds = length answers ∧
    ∀ i p, preds !! i = Some p →
      Num <$> logits0 !! i = Some (prediction_score p) ∧
      answers !! i = Some (output (prediction_output p)).
Proof.
  unfold classification_predictions, mbind, M_bind, lift. intros Hrun.
  destruct (first_logits m) as [logits0|]; [|done].
  destruct (_prediction_documents_iter_from_context _ _) as [docs|]; [|done].
  destruct (get_attributions m h) as [[l|] h1]; [|done].
  destruct (extend_and_sort_attributions_to_scores _ _ _ _) as [[attrs|] h2];
    [|done].
  destruct (iter_text _) as [qs|]; [|done].
  destruct (for_each _ _) as [preds'|] eqn:Hloop; [|done].
  injection Hrun as -> ->.
  apply for_each_lookup in Hloop as [Hlen Hrows].
  rewrite zip_longest5_length in Hlen.
  assert (Hrow : ∀ i p, preds !! i = Some p →
            Num <$> logits0 !! i = Some (prediction_score p) ∧
            answers !! i = Some (output (prediction_output p))).
  { intros i p Hp. destruct (Hrows i p Hp) as (row & Hi & Hok).
    apply zip_longest5_lookup in Hi.
    apply classification_prediction_ok in Hok
      as (q & s & a & ds & attr & -> & _ & -> & -> & _).
    by injection Hi as _ <- <- _ _. }
  exists logits0. split_and!; [done| |done].
  apply Nat.le_antisymm.
  - destruct preds as [|p0 preds0 _] using rev_ind; [simpl; lia|].
    rewrite length_app. simpl.
    destruct (Hrow (length preds0) p0) as [_ Ha].
    { by rewrite lookup_app_r, Nat.sub_diag by done. }
    apply lookup_lt_Some in Ha. lia.
  - rewrite Hlen. simpl. lia.
Qed.

(** C5. When the payload of the classification strategy carries
    adversarial indices, the envelope holds exactly the list the loop over
    the zipped inputs built (the [i]-th prediction made of the [i]-th logit
    and answer, not re-sorted), and its adversarial field is the payload's
    value. *)
Theorem adversarial_classification_keeps_zip_order
    (questions : text_value) (answers : list string) (m : ClassificationOutput)
    (context : text_value) (adv : Adversarial) (h h' : heap)
    (envelope : QueryOutput) :
  mo_adversarial m = Some (Some adv) →
  from_sequence_classification questions answers m context h
  = (Ok envelope, h') →
  classification_predictions questions answers m context h
  = (Ok (predictions envelope), h') ∧
  adversarial envelope = Some adv ∧
  ∃ logits0,
    first_logits m = Ok logits0 ∧
    length (predictions envelope) = length answers ∧
    ∀ i p, predictions envelope !! i = Some p →
      Num <$> logits0 !! i = Some (prediction_score p) ∧
      answers !! i = Some (output (prediction_output p)).
Proof.
  intros Hadv. unfold from_sequence_classification, mbind, M_bind.
  destruct (classification_predictions _ _ _ _ _) as [[preds|] h1] eqn:Hloop;
    [|done].
  rewrite Hadv. simpl. rewrite new_QueryOutput_unsorted.
  unfold mret, M_ret. intros [= <- <-]. simpl.
  split_and!; [done..|].
  by eapply classification_predictions_positional.
Qed.

(** Logits [0.1, 0.9] with adversarial indices: the envelope keeps "a"
    before "b". *)
Lemma adversarial_classification_keeps_zip_order_witness :
  ∃ envelope,
    (from_sequence_classification (VStr "q") ["a"; "b"] ex_with_adversarial
       VNone ∅).1 = Ok envelope ∧
    predictions envelope = [ex_prediction "q" "a" 0.1; ex_prediction "q" "b" 0.9] ∧
    adversarial envelope = Some ex_adversarial.
Proof.
  eexists. split; [reflexivity|]. split; [reflexivity|].
  eapply (adversarial_classification_keeps_zip_order
            (VStr "q") ["a"; "b"] ex_with_adversarial VNone ex_adversarial ∅);
    reflexivity.
Defined.

(* ===================================================================== *)
(** ** Classification-with-graph strategy *)
(* ===================================================================== *)

(** The predictions of the graph strategy are scored by a logit and have
    no documents. *)
Lemma graph_prediction_numbers m row p :
  graph_prediction m row = Ok p → ranked_by_numbers p.
Proof.
  destruct row as [i [[q s] a]]. unfold graph_prediction.
  cbn [mbind result_bind new_PredictionOutput new_Prediction required_field
       default_field].
  destruct (getkey (mo_labels m)) as [labels|]; cbn [mbind result_bind]; [|done].
  destruct (getitem labels 0) as [label|]; cbn [mbind result_bind]; [|done].
  case_bool_decide.
  - destruct (getkey (mo_lm_subgraph m)); cbn [mbind result_bind]; [|done].
    destruct (getkey (mo_attn_subgraph m)); cbn [mbind result_bind]; [|done].
    intros [= <-]. split; by eexists.
  - intros [= <-]. split; by eexists.
Qed.

(** The graph strategy never hands the payload's adversarial entry to the
    envelope, so the validator sorts whatever it returns; made of logits,
    the predictions come out ranked. *)
Lemma graph_strategy_always_ranks questions answers m envelope :
  from_sequence_classification_with_graph questions answers m = Ok envelope →
  adversarial envelope = None ∧ ranked (predictions envelope).
Proof.
  unfold from_sequence_classification_with_graph.
  destruct (first_logits m) as [logits0|]; cbn [mbind result_bind]; [|done].
  destruct (iter_text _) as [qs|]; cbn [mbind result_bind]; [|done].
  destruct (for_each _ _) as [preds|] eqn:Hloop; cbn [mbind result_bind]; [|done].
  intros [= <-]. split; [done|].
  rewrite new_QueryOutput_sorted by done. apply sorted_ranked.
  apply for_each_lookup in Hloop as [_ Hrows].
  apply Forall_forall. intros p [i Hp]%list_elem_of_lookup.
  destruct (Hrows i p Hp) as (row & _ & Hok).
  by eapply graph_prediction_numbers.
Qed.

(** C8 at the failing input: logits [0.1, 0.9], label 1 and adversarial
    indices [0].  The zip yields "a" then "b"; the envelope of the graph
    strategy holds "b" (with the graph) before "a" and has no adversarial
    field, whereas the plain classification strategy keeps "a" before "b"
    on the same scores. *)
Theorem graph_strategy_ranks_despite_adversarial :
  mo_adversarial ex_graph_with_adversarial = Some (Some ex_adversarial) ∧
  from_sequence_classification_with_graph (VStr "q") ["a"; "b"]
    ex_graph_with_adversarial
  = Ok {| predictions :=
            [ set_prediction_graph (ex_prediction "q" "b" 0.9)
                {| lm_subgraph := ex_subgraph; attn_subgraph := ex_subgraph |};
              ex_prediction "q" "a" 0.1 ];
          adversarial := None |}.
Proof. split; reflexivity. Qed.

(* ===================================================================== *)
(** ** Generation strategy *)
(* ===================================================================== *)

(** The call shape of the generation strategy leaves the required parameter
    [value] without an argument; the shape used by the other strategies
    binds every parameter. *)
Lemma check_call_generation :
  check_call overwrite_signature 2 ["len"] = Raise TypeError.
Proof. reflexivity. Qed.

Lemma check_call_siblings :
  check_call overwrite_signature 1 ["key"; "value"; "len"] = Ok ().
Proof. reflexivity. Qed.

(** C2 at the failing input, and at every other: the generation strategy
    raises before it builds a prediction.  For [questions="q"], payload
    [{"generated_texts": [["Paris"]]}] and context "ctx" the exception is
    the [TypeError] of the call of [overwrite_from_model_api_output]. *)
Theorem from_generation_always_raises :
  (∀ questions m context context_score,
     raises (from_generation questions m context context_score)) ∧
  from_generation (VStr "q") ex_generation (VStr "ctx") SNone = Raise TypeError.
Proof.
  split; [|reflexivity].
  intros questions m context context_score. unfold from_generation.
  destruct (getkey _) as [texts|e]; cbn [mbind result_bind]; [|by exists e].
  destruct (getitem _ _) as [first|e]; cbn [mbind result_bind]; [|by exists e].
  rewrite check_call_generation. by exists TypeError.
Qed.

(* ===================================================================== *)
(** ** Typed records and mappings under the ranking policy *)
(* ===================================================================== *)

(** On a mapping that spells out every document score, as [.dict()]
    produces it, both branches of the policy return the same key. *)
Lemma sort_predictions_key_dict_of_record (p : Prediction) :
  sort_predictions_key (OfDict (prediction_dict p))
  = sort_predictions_key (OfPrediction p).
Proof.
  simpl. unfold dict_key, prediction_key. simpl.
  by destruct (prediction_documents p).
Qed.

(** C6 at the failing input: the mapping
    [{"question": "q", "prediction_score": 0.5,
      "prediction_output": {"output": "Paris", "output_score": 0.5},
      "prediction_documents": [{"document": "d"}]}]
    gets the key [(True, 0.5, 1)], the record parsed from it the key
    [(True, 0.5, 0)], and the two keys are not equal. *)
Theorem sort_predictions_key_record_differs_from_mapping :
  sort_predictions_key (OfDict ex_dict) = Ok (true, Num 0.5, Num 1) ∧
  sort_predictions_key (OfPrediction (parse_prediction ex_dict))
  = Ok (true, Num 0.5, Num 0) ∧
  key_eq (true, Num 0.5, Num 1) (true, Num 0.5, Num 0) = false ∧
  key_lt (true, Num 0.5, Num 0) (true, Num 0.5, Num 1) = true.
Proof. split_and!; reflexivity. Qed.

(* ===================================================================== *)
(** ** Extractive question answering with a list of contexts *)
(* ===================================================================== *)

(** With a list of contexts, a pair whose position has no context score
    cannot be processed. *)
Lemma qa_pair_raises context context_score attrs i q answers :
  context_score = SNone ∨ (∃ l, context_score = SList l ∧ length l ≤ i) →
  raises (qa_pair (VList context) context_score attrs (i, (q, answers))).
Proof.
  intros Hcs. unfold qa_pair, context_of_pair.
  destruct (getitem context i) as [d|e]; simpl; [|by exists e].
  destruct Hcs as [->|(l & -> & Hl)]; simpl; [by exists TypeError|].
  unfold getitem. rewrite (lookup_ge_None_2 l i Hl). by exists IndexError.
Qed.

Lemma qa_loop_raises context context_score attrs
    (rows : list (string * list Answer)) (i0 : nat) :
  (context_score = SNone ∧ rows ≠ []) ∨
  (∃ l, context_score = SList l ∧ i0 ≤ length l < i0 + length rows) →
  raises (for_each (qa_pair (VList context) context_score attrs)
            (zip (seq i0 (length rows)) rows)).
Proof.
  revert i0. induction rows as [|[q answers] rows IH]; intros i0 Hcs.
  - destruct Hcs as [[_ ?]|(l & _ & Hl)]; [done|simpl in Hl; lia].
  - cbn [length seq zip_with]. apply for_each_cons_raises.
    destruct Hcs as [[-> _]|(l & -> & Hl)].
    + left. apply qa_pair_raises. by left.
    + simpl in Hl. destruct (decide (length l = i0)) as [Heq|Hne].
      * left. apply qa_pair_raises. right. exists l. split; [done|lia].
      * right. apply IH. right. exists l. split; [done|lia].
Qed.

(** C10, amended. With the context given as a list, the extractive QA
    strategy raises and returns no envelope whenever [context_score] is
    [None] and at least one question/answers pair is iterated, or
    [context_score] is a list with fewer entries than there are iterated
    pairs. *)
Theorem question_answering_raises_without_context_scores
    (questions : text_value) (m : QuestionAnsweringOutput)
    (context : list string) (context_score : score_value)
    (pairs : list (nat * (string * list Answer))) :
  qa_pairs questions m = Ok pairs →
  (context_score = SNone ∧ 0 < length pairs) ∨
  (∃ l, context_score = SList l ∧ length l < length pairs) →
  raises (from_question_answering questions m (VList context) context_score).
Proof.
  intros Hpairs Hcs. unfold from_question_answering. rewrite Hpairs.
  cbn [mbind result_bind].
  unfold qa_pairs in Hpairs.
  destruct (getkey _) as [answers|]; cbn [mbind result_bind] in Hpairs; [|done].
  destruct (iter_text _) as [qs|]; cbn [mbind result_bind] in Hpairs; [|done].
  injection Hpairs as <-. unfold enumerate in Hcs |- *.
  set (rows := zip qs answers) in *.
  assert (Hlen : length (zip (seq 0 (length rows)) rows) = length rows).
  { rewrite length_zip_with, length_seq. lia. }
  rewrite Hlen in Hcs. clear Hlen.
  destruct (qa_loop_raises context context_score (qa_attributions m) rows 0)
    as [e He].
  - destruct Hcs as [[-> Hlen]|(l & -> & Hlen)].
    + left. split; [done|]. intros Hnil. rewrite Hnil in Hlen. simpl in Hlen. lia.
    + right. exists l. split; [done|lia].
  - rewrite He. by exists e.
Qed.

(** One question, one answer group, one context, no context scores. *)
Lemma question_answering_raises_without_context_scores_witness :
  raises (from_question_answering (VStr "q") ex_question_answering
            (VList ["Paris is the capital of France."]) SNone).
Proof.
  eapply question_answering_raises_without_context_scores.
  - reflexivity.
  - left. split; [reflexivity|]. simpl. lia.
Defined.

(** C10 as stated fails: with two contexts, a single context score and one
    question/answers group, the score list is shorter than the context list
    and the call still returns an envelope.  With an empty list of
    questions the payload's group is never iterated, and the call returns
    an empty envelope although [context_score] is [None]. *)
Lemma question_answering_short_scores_counterexample :
  from_question_answering (VList []) ex_question_answering
    (VList ["Paris is the capital of France."]) SNone
  = Ok {| predictions := []; adversarial := None |} ∧
  length [0.5%Q] < length ["Paris is the capital of France."; "Lyon"] ∧
  qa_pairs (VStr "q") ex_question_answering
  = Ok [(0, ("q", [{| answer := "Paris"; start := 0; end_ := 5; score := 0.8 |}]))] ∧
  from_question_answering (VStr "q") ex_question_answering
    (VList ["Paris is the capital of France."; "Lyon"]) (SList [0.5%Q])
  = Ok {| predictions :=
            [{| question := "q"; prediction_score := 0.8;
                prediction_output := {| output := "Paris"; output_score := 0.8 |};
                prediction_documents :=
                  [{| index := ""; document_id := "";
                      document := "Paris is the capital of France.";
                      span := Some [0%Z; 5%Z]; url := ""; source := "";
                      document_score := 0.5 |}];
                prediction_graph := None; attributions := None |}];
          adversarial := None |}.
Proof. split_and!; [reflexivity|simpl; lia|reflexivity..]. Qed.

(* ===================================================================== *)
(** ** Ranked envelopes on the example data *)
(* ===================================================================== *)

(** The example list, ranked: the two answers first, in their input order,
    and the higher-scored "no answer" last. *)
Lemma sort_predictions_ranked_and_stable_witness :
  predictions (new_QueryOutput ex_predictions Omitted)
  = [ ex_prediction "q" "Paris" 0.5; ex_prediction "q" "Lyon" 0.5;
      ex_prediction "q" NO_ANSWER_FOUND_STRING 0.9 ] ∧
  (∀ p, sort_predictions_key (OfPrediction p)
        = Ok (negb (bool_decide (no_answer p)), prediction_score p,
              lead_document_score p)) ∧
  predictions (new_QueryOutput ex_predictions Omitted) ≡ₚ ex_predictions ∧
  ranked (predictions (new_QueryOutput ex_predictions Omitted)) ∧
  keeps_equal_rank_order ex_predictions
    (predictions (new_QueryOutput ex_predictions Omitted)).
Proof.
  split; [reflexivity|].
  apply (sort_predictions_ranked_and_stable ex_predictions Omitted).
  - reflexivity.
  - repeat (constructor; [split; eexists; reflexivity|]). constructor.
Defined.

(** In the ranked example list the "no answer" (position 2) stands after
    "Paris" (position 0). *)
Lemma no_answer_ranked_last_witness :
  predictions (new_QueryOutput ex_predictions Omitted) !! 2
  = Some (ex_prediction "q" NO_ANSWER_FOUND_STRING 0.9) ∧
  predictions (new_QueryOutput ex_predictions Omitted) !! 0
  = Some (ex_prediction "q" "Paris" 0.5) ∧
  0 < 2.
Proof.
  split; [reflexivity|]. split; [reflexivity|].
  apply (no_answer_ranked_last ex_predictions Omitted 2 0
           (ex_prediction "q" NO_ANSWER_FOUND_STRING 0.9)
           (ex_prediction "q" "Paris" 0.5)).
  - reflexivity.
  - reflexivity.
  - reflexivity.
  - right. reflexivity.
  - intros [H|H]; discriminate H.
Defined.

(* ===================================================================== *)
(** ** More on the value-or-override helper *)
(* ===================================================================== *)

(** X1. The helper never returns a bare string: a string, taken from the
    caller or from a non-empty payload entry, comes back as [len] copies of
    itself, so later loops see whole strings and never characters.  A
    payload entry that is [None], empty or missing leaves the caller's
    value in charge. *)
Theorem overwrite_broadcasts_strings
    (m : text_entries) (key : string) (value : text_value) (len : nat) :
  (∀ s, overwrite_from_model_api_output m key value len ≠ VStr s) ∧
  (∀ s, m key = Some (VStr s) → s ≠ "" →
        iter_text (overwrite_from_model_api_output m key value len)
        = Ok (replicate len s)) ∧
  (∀ v s, m key = Some v → truthy v = false → value = VStr s →
        iter_text (overwrite_from_model_api_output m key value len)
        = Ok (replicate len s)) ∧
  (∀ s, m key = None → value = VStr s →
        iter_text (overwrite_from_model_api_output m key value len)
        = Ok (replicate len s)).
Proof.
  unfold overwrite_from_model_api_output. split_and!.
  - intros s. destruct (m key) as [v|]; [destruct (truthy v)|];
      by repeat (case_match; simplify_eq).
  - intros s -> Hs. simpl.
    rewrite (proj2 (String.eqb_neq s "")) by done. done.
  - by intros v s -> -> ->.
  - by intros s -> ->.
Qed.

(** A payload that carries one question for three candidates, and an
    empty one next to a caller's question. *)
Lemma overwrite_broadcasts_strings_witness :
  iter_text (overwrite_from_model_api_output
               (λ _, Some (VStr "who?")) "questions" (VList ["a"; "b"]) 3)
  = Ok ["who?"; "who?"; "who?"] ∧
  iter_text (overwrite_from_model_api_output
               (λ _, Some (VStr "")) "questions" (VStr "what?") 2)
  = Ok ["what?"; "what?"].
Proof.
  split.
  - destruct (overwrite_broadcasts_strings (λ _, Some (VStr "who?"))
                "questions" (VList ["a"; "b"]) 3) as (_ & Hpayload & _).
    apply Hpayload; [reflexivity|discriminate].
  - destruct (overwrite_broadcasts_strings (λ _, Some (VStr ""))
                "questions" (VStr "what?") 2) as (_ & _ & Hcaller & _).
    apply (Hcaller (VStr "")); reflexivity.
Defined.

(** X2. Resolving a value twice against the same payload changes nothing:
    the helper is idempotent. *)
Theorem overwrite_idempotent
    (m : text_entries) (key : string) (value : text_value) (len : nat) :
  overwrite_from_model_api_output m key
    (overwrite_from_model_api_output m key value len) len
  = overwrite_from_model_api_output m key value len.
Proof.
  unfold overwrite_from_model_api_output.
  destruct (m key) as [v|]; [destruct (truthy v) eqn:Hv|];
    repeat (case_match; simplify_eq); done.
Qed.

(* ===================================================================== *)
(** ** Re-validating an envelope *)
(* ===================================================================== *)

(** X3. The root validator is idempotent: running it on an envelope it has
    already processed, with or without adversarial info, returns the same
    envelope. *)
Theorem sort_predictions_idempotent (values : QueryOutput) :
  sort_predictions (sort_predictions values) = sort_predictions values.
Proof.
  destruct values as [preds [a|]]; [done|].
  unfold sort_predictions. cbn [adversarial predictions]. f_equal.
  unfold sorted_by_key. apply sorted_idempotent.
  intros a b. apply key_lt_asym.
Qed.

(* ===================================================================== *)
(** ** More on loops *)
(* ===================================================================== *)

Lemma for_each_Forall2 {A B} (f : A → result B) xs ys :
  for_each f xs = Ok ys ↔ Forall2 (λ x y, f x = Ok y) xs ys.
Proof.
  revert ys. induction xs as [|x xs IH]; intros ys; simpl.
  - split; [intros [= <-]; constructor|by inv 1].
  - split.
    + destruct (f x) as [y|] eqn:Hx; simpl; [|done].
      destruct (for_each f xs) as [ys'|] eqn:Hxs; simpl; [|done].
      intros [= <-]. constructor; [done|by apply IH].
    + inv 1 as [|? y ? ys' Hy Hys]. rewrite Hy. simpl.
      apply IH in Hys. by rewrite Hys.
Qed.

Lemma for_each_elem_raises {A B} (f : A → result B) x xs :
  x ∈ xs → raises (f x) → raises (for_each f xs).
Proof.
  induction 1 as [x xs|x y xs Hx IH]; intros Hr;
    apply for_each_cons_raises; [by left|right; by apply IH].
Qed.

Lemma for_each_elem_of {A B} (f : A → result B) xs ys y :
  for_each f xs = Ok ys → y ∈ ys → ∃ x, x ∈ xs ∧ f x = Ok y.
Proof.
  intros Hloop%for_each_lookup [i Hi]%list_elem_of_lookup.
  destruct Hloop as [_ Hrows]. destruct (Hrows i y Hi) as (x & Hx & Hfx).
  exists x. split; [by eapply list_elem_of_lookup_2|done].
Qed.

(** An envelope holds the predictions it was built from, in some order. *)
Lemma new_QueryOutput_perm preds adv :
  predictions (new_QueryOutput preds adv) ≡ₚ preds.
Proof.
  destruct (optional_field adv) as [a|] eqn:Hadv.
  - destruct adv; simplify_eq/=. done.
  - rewrite new_QueryOutput_sorted; [apply sorted_perm|].
    by rewrite new_QueryOutput_adversarial.
Qed.

(* ===================================================================== *)
(** ** [np.argmax] *)
(* ===================================================================== *)



(* ===================================================================== *)
(** ** Extractive question answering: what the predictions hold *)
(* ===================================================================== *)

Lemma answer_text_not_empty ans : answer_text ans ≠ "".
Proof.
  unfold answer_text. destruct (String.eqb (answer ans) "") eqn:He; [done|].
  by apply String.eqb_neq.
Qed.

(** What the inner loop makes of one candidate. *)
Lemma qa_prediction_ok attrs i q doc sc top k ans s p :
  qa_prediction attrs i q doc sc top (k, (ans, s)) = Ok p →
  question p = q ∧ prediction_score p = s ∧
  prediction_output p = {| output := answer_text ans; output_score := s |} ∧
  prediction_graph p = None ∧
  (doc = "" ∧ prediction_documents p = [] ∨
   doc ≠ "" ∧ ∃ x, sc = inl x ∧ prediction_documents p = [span_document doc ans x]) ∧
  match attrs with
  | Some (c :: rest) =>
      if decide (k = top)
      then ∃ a, get_attribution_by_context_i (c :: rest) i = Ok a ∧
                attributions p = Some a
      else attributions p = None
  | _ => attributions p = None
  end.
Proof.
  unfold qa_prediction, answer_text.
  cbn [mbind result_bind new_PredictionOutput required_field].
  assert (Hattr : ∀ p0 : Prediction,
    match attrs with
    | Some (c :: cs) =>
        if bool_decide (k = top)
        then a ← get_attribution_by_context_i (c :: cs) i;
             Ok (set_attributions p0 a)
        else Ok p0
    | _ => Ok p0
    end = Ok p →
    question p = question p0 ∧ prediction_score p = prediction_score p0 ∧
    prediction_output p = prediction_output p0 ∧
    prediction_graph p = prediction_graph p0 ∧
    prediction_documents p = prediction_documents p0 ∧
    match attrs with
    | Some (c :: rest) =>
        if decide (k = top)
        then ∃ a, get_attribution_by_context_i (c :: rest) i = Ok a ∧
                  attributions p = Some a
        else attributions p = attributions p0
    | _ => attributions p = attributions p0
    end).
  { intros p0. destruct attrs as [[|c rest]|]; try (by intros [= <-]).
    case_bool_decide; destruct (decide (k = top)); try done;
      [|by intros [= <-]].
    destruct (get_attribution_by_context_i (c :: rest) i) as [a|];
      cbn [mbind result_bind]; [|done].
    intros [= <-]. split_and!; eauto. }
  destruct (String.eqb doc "") eqn:Hdoc; cbn [negb mbind result_bind].
  - apply String.eqb_eq in Hdoc as ->.
    intros (-> & -> & -> & -> & Hdocs & Ha)%Hattr. cbn in Hdocs.
    split_and!; auto.
  - apply String.eqb_neq in Hdoc.
    destruct sc as [x|l]; cbn [float_arg mbind result_bind]; [|done].
    intros (-> & -> & -> & -> & Hdocs & Ha)%Hattr. cbn in Hdocs.
    split_and!; eauto.
Qed.

Lemma enumerate_zip_scores_lookup (answers : list Answer) k row :
  enumerate (zip answers (score <$> answers)) !! k = Some row →
  ∃ ans, answers !! k = Some ans ∧ row = (k, (ans, score ans)).
Proof.
  destruct row as [k' [ans s]]. intros [-> Hk]%enumerate_lookup.
  apply lookup_zip_with_Some in Hk as (a & s' & [= -> ->] & Ha & Hs).
  rewrite list_lookup_fmap, Ha in Hs. injection Hs as <-. eauto.
Qed.

(** What the outer loop makes of one question/answers pair. *)
Lemma qa_pair_ok context context_score attrs i q answers preds :
  qa_pair context context_score attrs (i, (q, answers)) = Ok preds →
  ∃ doc sc top,
    context_of_pair context context_score i = Ok (doc, sc) ∧
    argmax (score <$> answers) = Ok top ∧
    length preds = length answers ∧
    ∀ k p, preds !! k = Some p →
      ∃ ans, answers !! k = Some ans ∧
             qa_prediction attrs i q doc sc top (k, (ans, score ans)) = Ok p.
Proof.
  unfold qa_pair.
  destruct (context_of_pair _ _ _) as [[doc sc]|]; cbn [mbind result_bind]; [|done].
  destruct (argmax _) as [top|]; cbn [mbind result_bind]; [|done].
  intros [Hlen Hrows]%for_each_lookup. exists doc, sc, top.
  split_and!; [done..| |].
  - rewrite Hlen. unfold enumerate.
    repeat rewrite ?length_zip_with, ?length_seq, ?length_fmap. lia.
  - intros k p Hp. destruct (Hrows k p Hp) as (row & Hrow & Hok).
    apply enumerate_zip_scores_lookup in Hrow as (ans & Hans & ->). eauto.
Qed.

Lemma qa_pairs_ok questions m pairs :
  qa_pairs questions m = Ok pairs →
  ∃ groups qs, qa_answers m = Some groups ∧ pairs = enumerate (zip qs groups).
Proof.
  unfold qa_pairs. destruct (qa_answers m) as [groups|]; cbn; [|done].
  destruct (iter_text _) as [qs|]; cbn; [|done].
  intros [= <-]. eauto.
Qed.

Lemma from_question_answering_ok questions m context context_score envelope :
  from_question_answering questions m context context_score = Ok envelope →
  ∃ pairs groups,
    qa_pairs questions m = Ok pairs ∧
    for_each (qa_pair context context_score (qa_attributions m)) pairs = Ok groups ∧
    predictions envelope ≡ₚ concat groups.
Proof.
  unfold from_question_answering.
  destruct (qa_pairs questions m) as [pairs|]; cbn [mbind result_bind]; [|done].
  destruct (for_each _ pairs) as [groups|] eqn:Hloop; cbn [mbind result_bind];
    [|done].
  intros Henv. exists pairs, groups. split_and!; [done..|].
  destruct (qa_adversarial m); injection Henv as <-; apply new_QueryOutput_perm.
Qed.

Lemma elem_of_concat {A} (x : A) (ls : list (list A)) :
  x ∈ concat ls ↔ ∃ l, x ∈ l ∧ l ∈ ls.
Proof.
  induction ls as [|l ls IH]; simpl.
  - split; [by intros ?%elem_of_nil|by intros (l & _ & ?%elem_of_nil)].
  - rewrite elem_of_app, IH. split.
    + intros [Hx|(l' & Hx & Hl')]; [exists l|exists l'];
        (split; [done|]); [by left|by right].
    + intros (l' & Hx & [->|Hl']%elem_of_cons); [by left|right; eauto].
Qed.

(** Every prediction of a returned envelope was built by the inner loop
    from one candidate of one group of the payload. *)
Lemma qa_prediction_origin questions m context context_score envelope p :
  from_question_answering questions m context context_score = Ok envelope →
  p ∈ predictions envelope →
  ∃ groups i q group doc sc top k ans,
    qa_answers m = Some groups ∧ groups !! i = Some group ∧
    group !! k = Some ans ∧
    context_of_pair context context_score i = Ok (doc, sc) ∧
    argmax (score <$> group) = Ok top ∧
    qa_prediction (qa_attributions m) i q doc sc top (k, (ans, score ans)) = Ok p.
Proof.
  intros (pairs & outs & Hpairs & Hloop & Hperm)%from_question_answering_ok Hp.
  rewrite Hperm in Hp. apply elem_of_concat in Hp as (preds & Hp & Hpreds).
  destruct (for_each_elem_of _ _ _ _ Hloop Hpreds) as ([i [q group]] & Hrow & Hok).
  apply qa_pairs_ok in Hpairs as (groups & qs & Hgroups & ->).
  apply list_elem_of_lookup in Hrow as [i' Hrow].
  apply enumerate_lookup in Hrow as [-> Hrow].
  apply lookup_zip_with_Some in Hrow as (q' & g' & [= -> ->] & _ & Hg).
  apply qa_pair_ok in Hok as (doc & sc & top & Hctx & Htop & _ & Hall).
  apply list_elem_of_lookup in Hp as [k Hk].
  destruct (Hall k p Hk) as (ans & Hans & Hpred).
  exists groups, i', q', g', doc, sc, top, k, ans. done.
Qed.

(** X4. Every prediction of an envelope returned by the extractive QA
    strategy stems from a candidate answer of the payload: it has the
    candidate's score, and as output the candidate's text, or the sentinel
    "No answer found." if that text is empty.  Its output is never the
    empty string, and it has no graph. *)
Theorem question_answering_predictions_from_candidates
    (questions : text_value) (m : QuestionAnsweringOutput)
    (context : text_value) (context_score : score_value)
    (envelope : QueryOutput) (p : Prediction) :
  from_question_answering questions m context context_score = Ok envelope →
  p ∈ predictions envelope →
  (∃ groups group ans,
     qa_answers m = Some groups ∧ group ∈ groups ∧ ans ∈ group ∧
     prediction_score p = score ans ∧
     prediction_output p
     = {| output := answer_text ans; output_score := score ans |}) ∧
  output (prediction_output p) ≠ "" ∧
  prediction_graph p = None.
Proof.
  intros Henv Hp.
  destruct (qa_prediction_origin _ _ _ _ _ _ Henv Hp)
    as (groups & i & q & group & doc & sc & top & k & ans
        & Hgroups & Hgroup & Hans & _ & _ & Hpred).
  apply qa_prediction_ok in Hpred as (_ & Hs & Ho & Hg & _).
  split_and!; [|by rewrite Ho; apply answer_text_not_empty|done].
  exists groups, group, ans.
  split_and!; eauto using list_elem_of_lookup_2.
Qed.


(** X6. The documents of the predictions follow the context.  Every
    prediction of a returned envelope stems from a candidate of the group
    at some position [i] of the payload's answers, having its score and its
    text, and: without a context, or with an empty context string, it has
    no document; with a non-empty context string it has exactly one
    document, holding that string, that candidate's span and the context
    score (1 if none was given); with a list of contexts, the context and
    the context score at position [i] exist, and the prediction has no
    document if that context is empty and else exactly one document,
    holding that context, that candidate's span and that score. *)
Theorem question_answering_documents_follow_context
    (questions : text_value) (m : QuestionAnsweringOutput)
    (context : text_value) (context_score : score_value)
    (envelope : QueryOutput) (p : Prediction) :
  from_question_answering questions m context context_score = Ok envelope →
  p ∈ predictions envelope →
  ∃ groups i group ans,
    qa_answers m = Some groups ∧ groups !! i = Some group ∧ ans ∈ group ∧
    prediction_score p = score ans ∧
    output (prediction_output p) = answer_text ans ∧
    match context with
    | VNone => prediction_documents p = []
    | VStr s =>
        if decide (s = "") then prediction_documents p = []
        else ∃ x,
          (context_score = SNone ∧ x = 1%Q ∨ context_score = SFloat x) ∧
          prediction_documents p = [span_document s ans x]
    | VList l =>
        ∃ d scores x,
          context_score = SList scores ∧ l !! i = Some d ∧ scores !! i = Some x ∧
          if decide (d = "") then prediction_documents p = []
          else prediction_documents p = [span_document d ans x]
    end.
Proof.
  intros Henv Hp.
  destruct (qa_prediction_origin _ _ _ _ _ _ Henv Hp)
    as (groups & i & q & group & doc & sc & top & k & ans
        & Hgroups & Hgroup & Hans & Hctx & _ & Hpred).
  apply qa_prediction_ok in Hpred as (_ & Hs & Ho & _ & Hdocs & _).
  exists groups, i, group, ans.
  split_and!; [done..|by eapply list_elem_of_lookup_2|done|by rewrite Ho|].
  destruct context as [|s|l]; simpl in Hctx.
  - injection Hctx as <- <-. by destruct Hdocs as [[_ ?]|[? _]].
  - injection Hctx as <- <-. destruct (decide (s = "")) as [->|Hs'].
    + by destruct Hdocs as [[_ ?]|[? _]].
    + destruct Hdocs as [[? _]|(_ & x & Hx & Hdocs)]; [done|].
      exists x. split; [|done].
      destruct context_score; simplify_eq; auto.
  - unfold getitem in Hctx.
    destruct (l !! i) as [d|] eqn:Hd; cbn [mbind result_bind] in Hctx; [|done].
    destruct context_score as [| |scores]; simpl in Hctx; try done.
    unfold getitem in Hctx.
    destruct (scores !! i) as [x|] eqn:Hx; cbn [mbind result_bind] in Hctx; [|done].
    injection Hctx as <- <-. exists d, scores, x. split_and!; [done..|].
    destruct (decide (d = "")) as [->|Hd'].
    + by destruct Hdocs as [[_ ?]|[? _]].
    + by destruct Hdocs as [[? _]|(_ & x' & [= <-] & Hdocs)].
Qed.

(** X7. If one of the iterated pairs has no candidate answers, the
    extractive QA strategy raises and returns no envelope. *)
Theorem question_answering_empty_group_raises
    (questions : text_value) (m : QuestionAnsweringOutput)
    (context : text_value) (context_score : score_value)
    (pairs : list (nat * (string * list Answer))) (i : nat) (q : string) :
  qa_pairs questions m = Ok pairs →
  (i, (q, [])) ∈ pairs →
  raises (from_question_answering questions m context context_score).
Proof.
  intros Hpairs Hrow. unfold from_question_answering. rewrite Hpairs.
  cbn [mbind result_bind].
  destruct (for_each_elem_raises
              (qa_pair context context_score (qa_attributions m))
              (i, (q, [])) pairs Hrow) as [e He].
  - unfold qa_pair.
    destruct (context_of_pair _ _ _) as [[doc sc]|e]; cbn; [|by exists e].
    by exists ValueError.
  - rewrite He. by exists e.
Qed.


Lemma for_each_all_ok {A B} (f : A → result B) xs :
  Forall (λ x, ∃ y, f x = Ok y) xs → ∃ ys, for_each f xs = Ok ys.
Proof.
  induction 1 as [|x xs [y Hy] _ [ys Hys]]; simpl; [by eexists|].
  rewrite Hy, Hys. by eexists.
Qed.

(** With a score that is no list and no attributions, the inner loop
    accepts every candidate. *)
Lemma qa_prediction_returns i q doc (x : Q) top row :
  ∃ p, qa_prediction None i q doc (inl x) top row = Ok p.
Proof.
  destruct row as [k [ans s]]. unfold qa_prediction.
  cbn [mbind result_bind new_PredictionOutput required_field].
  destruct (negb (String.eqb doc "")); cbn; by eexists.
Qed.

(** X9. The extractive QA strategy returns an envelope whenever the
    payload has an "answers" entry whose groups are all non-empty and no
    attributions, the questions are not [None], the context is [None] or a
    string, and the context score is [None] or a number. *)
Theorem question_answering_returns
    (questions : text_value) (m : QuestionAnsweringOutput)
    (context : text_value) (context_score : score_value)
    (groups : list (list Answer)) :
  qa_answers m = Some groups →
  Forall (λ group, group ≠ []) groups →
  questions ≠ VNone →
  (∀ l, context ≠ VList l) →
  (∀ l, context_score ≠ SList l) →
  qa_attributions m = None →
  ∃ envelope,
    from_question_answering questions m context context_score = Ok envelope.
Proof.
  intros Hgroups Hne Hq Hctx Hcs Hattr.
  unfold from_question_answering, qa_pairs. rewrite Hgroups, Hattr.
  cbn [getkey mbind result_bind].
  assert (∃ qs, iter_text (overwrite_from_model_api_output (qa_text m)
                  "questions" questions (length groups)) = Ok qs) as [qs ->].
  { unfold overwrite_from_model_api_output.
    destruct (qa_text m "questions") as [[|s|l]|]; simpl.
    - destruct questions; by eauto.
    - destruct (negb (String.eqb s "")); [by eauto|]. destruct questions; by eauto.
    - destruct (negb (bool_decide (l = []))); [by eauto|].
      destruct questions; by eauto.
    - destruct questions; by eauto. }
  cbn [mbind result_bind].
  destruct (for_each_all_ok (qa_pair context context_score None)
              (enumerate (zip qs groups))) as [outs ->].
  - apply Forall_forall. intros [i [q group]] [k Hrow]%list_elem_of_lookup.
    apply enumerate_lookup in Hrow as [-> Hrow].
    apply lookup_zip_with_Some in Hrow as (q' & g' & [= -> ->] & _ & Hg).
    assert (g' ≠ []) as Hg'.
    { rewrite Forall_forall in Hne. apply Hne. by eapply list_elem_of_lookup_2. }
    unfold qa_pair.
    assert (∃ doc x, context_of_pair context context_score k = Ok (doc, inl x))
      as (doc & x & ->).
    { destruct context as [|s|l]; [| |by destruct (Hctx l)];
        (destruct context_score as [|x|l]; [| |by destruct (Hcs l)]);
        simpl; eauto. }
    cbn [mbind result_bind].
    destruct g' as [|ans g']; [done|]. cbn [fmap list_fmap argmax mbind result_bind].
    apply for_each_all_ok, Forall_forall. intros row _.
    apply qa_prediction_returns.
  - cbn [mbind result_bind]. destruct (qa_adversarial m); by eexists.
Qed.

(** The payload of one group with one candidate, a question, a context
    string and no context score. *)
Lemma question_answering_returns_witness :
  ∃ envelope,
    from_question_answering (VStr "q") ex_question_answering
      (VStr "Paris is the capital of France.") SNone = Ok envelope.
Proof.
  apply (question_answering_returns (VStr "q") ex_question_answering
           (VStr "Paris is the capital of France.") SNone
           [[{| answer := "Paris"; start := 0; end_ := 5; score := 0.8 |}]]).
  - reflexivity.
  - repeat constructor. discriminate.
  - discriminate.
  - discriminate.
  - discriminate.
  - reflexivity.
Defined.

(* ===================================================================== *)
(** ** Classification strategy: lengths, results and effects *)
(* ===================================================================== *)

Lemma length_from_lookups {A} (l : list A) (n : nat) :
  length l ≤ n → (∀ i, i < n → is_Some (l !! i)) → length l = n.
Proof.
  intros Hle Hall. destruct n as [|n]; [lia|].
  specialize (Hall n (Nat.lt_succ_diag_r n)).
  apply lookup_lt_is_Some_1 in Hall. lia.
Qed.

Lemma from_sequence_classification_ok
    questions answers m context (h h' : heap) envelope :
  from_sequence_classification questions answers m context h = (Ok envelope, h') →
  ∃ preds,
    classification_predictions questions answers m context h = (Ok preds, h') ∧
    predictions envelope ≡ₚ preds.
Proof.
  unfold from_sequence_classification, mbind, M_bind.
  destruct (classification_predictions _ _ _ _ _) as [[preds|] h1]; [|done].
  unfold mret, M_ret.
  destruct (mo_adversarial m); intros [= <- <-]; exists preds;
    (split; [done|apply new_QueryOutput_perm]).
Qed.

(** A loop that completes has found the questions, the logits and the
    answers to be of one length. *)
Lemma classification_predictions_lengths
    questions answers m context (h h' : heap) preds :
  classification_predictions questions answers m context h = (Ok preds, h') →
  ∃ logits0 qs,
    first_logits m = Ok logits0 ∧
    iter_text (overwrite_from_model_api_output (mo_text m) "questions"
                 questions (length logits0)) = Ok qs ∧
    length preds = length answers ∧
    length logits0 = length answers ∧
    length qs = length answers.
Proof.
  unfold classification_predictions, mbind, M_bind, lift. intros Hrun.
  destruct (first_logits m) as [logits0|]; [|done].
  destruct (_prediction_documents_iter_from_context _ _) as [docs|]; [|done].
  destruct (get_attributions m h) as [[l|] h1]; [|done].
  destruct (extend_and_sort_attributions_to_scores _ _ _ _) as [[attrs|] h2];
    [|done].
  destruct (iter_text _) as [qs|] eqn:Hiter; [|done].
  destruct (for_each _ _) as [preds'|] eqn:Hloop; [|done].
  injection Hrun as -> ->.
  apply for_each_lookup in Hloop as [Hlen Hrows].
  rewrite zip_longest5_length in Hlen. simpl in Hlen.
  assert (Hrow : ∀ i, i < length preds →
            is_Some (qs !! i) ∧ is_Some (logits0 !! i) ∧ is_Some (answers !! i)).
  { intros i [p Hp]%lookup_lt_is_Some_2.
    destruct (Hrows i p Hp) as (row & Hi & Hok).
    apply zip_longest5_lookup in Hi.
    apply classification_prediction_ok in Hok
      as (q & s & a & ds & attr & -> & _).
    injection Hi as <- <- <- _ _. eauto. }
  assert (length qs = length preds) as Hqs.
  { apply length_from_lookups; [lia|]. intros i Hi. by apply Hrow. }
  assert (length logits0 = length preds) as Hlogits.
  { apply length_from_lookups; [lia|]. intros i Hi. by apply Hrow. }
  assert (length answers = length preds) as Hanswers.
  { apply length_from_lookups; [lia|]. intros i Hi. by apply Hrow. }
  exists logits0, qs. split_and!; [done..|lia|lia|lia].
Qed.

(** X10. The classification strategy raises and returns no envelope when
    the number of answers, or the number of questions in a list of
    questions, differs from the number of logits. *)
Theorem classification_length_mismatch_raises
    (questions : text_value) (answers : list string) (m : ClassificationOutput)
    (context : text_value) (h : heap) (logits0 : list Q) :
  first_logits m = Ok logits0 →
  length answers ≠ length logits0 ∨
  (∃ l, overwrite_from_model_api_output (mo_text m) "questions" questions
          (length logits0) = VList l ∧ length l ≠ length logits0) →
  raises (from_sequence_classification questions answers m context h).1.
Proof.
  intros Hlogits Hmis.
  destruct (from_sequence_classification questions answers m context h)
    as [[envelope|e] h'] eqn:Hrun; [exfalso|by exists e].
  apply from_sequence_classification_ok in Hrun as (preds & Hloop & _).
  apply classification_predictions_lengths in Hloop
    as (logits0' & qs & Hlogits' & Hqs & _ & Hlen & Hlenq).
  rewrite Hlogits in Hlogits'. injection Hlogits' as <-.
  destruct Hmis as [Hmis|(l & Hl & Hmis)]; [lia|].
  rewrite Hl in Hqs. injection Hqs as <-. lia.
Qed.

(** Three answers for two logits. *)
Lemma classification_length_mismatch_raises_witness :
  raises (from_sequence_classification (VStr "q") ["a"; "b"; "c"]
            (ex_classification [[0.2; 0.9]%Q]) VNone ∅).1.
Proof.
  apply (classification_length_mismatch_raises _ _ _ _ _ [0.2; 0.9]%Q).
  - reflexivity.
  - left. simpl. lia.
Defined.

(** Sorting pairs of positions and fill values yields fill values only. *)
Lemma sorted_zip_replicate {A} (idx : list nat) (n : nat) (x y : A) :
  y ∈ (sorted_by_key Nat.ltb fst false (zip idx (replicate n x))).*2 → y = x.
Proof.
  intros ([i y'] & -> & Hin)%list_elem_of_fmap_1.
  unfold sorted_by_key in Hin. rewrite sorted_perm in Hin.
  apply elem_of_zip_r in Hin. by apply elem_of_replicate_inv in Hin.
Qed.

(** Without an "attributions" entry the helper is run on a new empty list
    and returns no attribution. *)
Lemma extend_and_sort_new_list scores (h : heap) :
  ∃ res h',
    extend_and_sort_attributions_to_scores scores (fresh (dom h)) None
      (<[fresh (dom h) := []]> h) = (Ok res, h') ∧
    length res ≤ length scores ∧
    ∀ a, a ∈ res → a = None.
Proof.
  rewrite (extend_and_sort_run scores _ None [] (<[fresh (dom h) := []]> h))
    by apply lookup_insert_eq.
  case_bool_decide; eexists _, _; (split; [done|]); split.
  - rewrite length_fmap. unfold sorted_by_key.
    rewrite sorted_perm, length_zip_with. simpl.
    rewrite length_replicate. lia.
  - intros a Ha. by apply sorted_zip_replicate in Ha.
  - simpl. lia.
  - by intros a ?%elem_of_nil.
Qed.

(** X11. For a question string, a context that is [None] or a string, and
    as many answers as logits, a payload without "questions", "context" and
    "attributions" entries makes the classification strategy return an
    envelope.  Its predictions are, in some order, the predictions made of
    the question, the [i]-th logit and the [i]-th answer, each with the
    context as its only document (none without context) and without
    attributions. *)
Theorem classification_returns
    (q : string) (answers : list string) (m : ClassificationOutput)
    (context : text_value) (h : heap) (logits0 : list Q) :
  mo_questions m = None → mo_context m = None → mo_attributions m = None →
  first_logits m = Ok logits0 →
  length answers = length logits0 →
  (∀ l, context ≠ VList l) →
  ∃ envelope,
    (from_sequence_classification (VStr q) answers m context h).1 = Ok envelope ∧
    predictions envelope
    ≡ₚ zip_with (answer_prediction q (context_documents context)) logits0 answers.
Proof.
  intros Hq Hc Ha Hlogits Hlen Hctx.
  set (n := length logits0).
  assert (Hdocs : _prediction_documents_iter_from_context (length answers)
            (inl (overwrite_from_model_api_output (mo_text m) "context" context n))
          = Ok (replicate n (context_documents context))).
  { unfold overwrite_from_model_api_output, mo_text. simpl. rewrite Hc.
    destruct context as [|s|l]; [| |by destruct (Hctx l)].
    - by rewrite Hlen.
    - cbn [_prediction_documents_iter_from_context].
      rewrite bool_decide_eq_false_2 by (rewrite length_replicate; lia).
      rewrite (for_each_total _ (λ c, [document_only c])) by done.
      by rewrite fmap_replicate. }
  assert (Hqs : iter_text (overwrite_from_model_api_output (mo_text m)
                  "questions" (VStr q) n) = Ok (replicate n q)).
  { unfold overwrite_from_model_api_output, mo_text. simpl. by rewrite Hq. }
  assert (Hloop : ∀ attrs : list attribution_entry,
            length attrs ≤ n →
            (∀ a, a ∈ attrs → a = None) →
            for_each classification_prediction
              (zip_longest5 (replicate n q) logits0 answers
                 (replicate n (context_documents context)) attrs)
            = Ok (zip_with (answer_prediction q (context_documents context))
                    logits0 answers)).
  { intros attrs Hattrs Hnone. apply for_each_Forall2.
    apply Forall2_same_length_lookup_2.
    - rewrite zip_longest5_length, length_zip_with, !length_replicate.
      simpl. lia.
    - intros i row p Hrow Hp.
      apply zip_longest5_lookup in Hrow as ->.
      apply lookup_zip_with_Some in Hp as (s & a & -> & Hs & Ha').
      assert (i < n) by (by eapply lookup_lt_Some).
      rewrite !lookup_replicate_2, Hs, Ha' by done.
      destruct (attrs !! i) as [[a0|]|] eqn:Hattr; [|done..].
      apply list_elem_of_lookup_2, Hnone in Hattr. done. }
  unfold from_sequence_classification, classification_predictions.
  unfold mbind at 1 2, M_bind at 1 2, lift at 1. rewrite Hlogits.
  fold n. unfold mbind at 1, M_bind at 1, lift at 1. rewrite Hdocs.
  unfold get_attributions. rewrite Ha.
  unfold mbind at 1, M_bind at 1.
  change (new_list h) with (Ok (fresh (dom h)), <[fresh (dom h) := []]> h).
  cbv beta iota.
  destruct (extend_and_sort_new_list logits0 h)
    as (res & h2 & Hrun & Hres & Hnone).
  unfold mbind at 1, M_bind at 1. rewrite Hrun. cbv beta iota.
  unfold mbind at 1, M_bind at 1, lift at 1. rewrite Hqs. cbv beta iota.
  unfold lift. rewrite (Hloop res Hres Hnone).
  destruct (mo_adversarial m); eexists; (split; [done|]);
    apply new_QueryOutput_perm.
Qed.

(** Two answers for two logits, with a context string. *)
Lemma classification_returns_witness :
  ∃ envelope,
    (from_sequence_classification (VStr "q") ["a"; "b"]
       (ex_classification [[0.2; 0.9]%Q]) (VStr "ctx") ∅).1 = Ok envelope ∧
    predictions envelope
    ≡ₚ [ answer_prediction "q" [document_only "ctx"] 0.2 "a";
         answer_prediction "q" [document_only "ctx"] 0.9 "b" ].
Proof.
  apply (classification_returns "q" ["a"; "b"]
           (ex_classification [[0.2; 0.9]%Q]) (VStr "ctx") ∅ [0.2; 0.9]%Q);
    try reflexivity.
  discriminate.
Defined.

(** X13. When the payload's attributions list has at least as many entries
    as there are logits, the classification strategy leaves the heap, and
    with it the payload, exactly as it was. *)
Theorem classification_keeps_long_attributions
    (questions : text_value) (answers : list string) (m : ClassificationOutput)
    (context : text_value) (h : heap) (l : nat)
    (attrs : list attribution_entry) (logits0 : list Q) :
  mo_attributions m = Some l →
  h !! l = Some attrs →
  first_logits m = Ok logits0 →
  length logits0 ≤ length attrs →
  (from_sequence_classification questions answers m context h).2 = h.
Proof.
  intros Hm Hl Hlogits Hlen.
  assert (Hloop : (classification_predictions questions answers m context h).2 = h).
  { unfold classification_predictions, mbind, M_bind, lift.
    rewrite Hlogits.
    destruct (_prediction_documents_iter_from_context _ _) as [docs|]; [|done].
    unfold get_attributions. rewrite Hm. unfold mret at 1, M_ret at 1.
    pose proof (extend_and_sort_heap logits0 l None attrs h Hl) as Hh.
    rewrite bool_decide_eq_false_2 in Hh by lia.
    destruct (extend_and_sort_attributions_to_scores _ _ _ _) as [[res|] h2];
      simpl in Hh; [|done].
    destruct (iter_text _); [|done].
    by destruct (for_each _ _). }
  unfold from_sequence_classification, mbind, M_bind.
  destruct (classification_predictions _ _ _ _ _) as [[preds|] h1];
    simpl in Hloop; [|done].
  by destruct (mo_adversarial m).
Qed.

(* ===================================================================== *)
(** ** Classification-with-graph strategy: what the envelope holds *)
(* ===================================================================== *)

(** What the loop of the graph strategy makes of one row. *)
Lemma graph_prediction_ok m i q s a p :
  graph_prediction m (i, (q, s, a)) = Ok p →
  ∃ labels label,
    mo_labels m = Some labels ∧ labels !! 0 = Some label ∧
    if decide (Z.of_nat i = label)
    then ∃ lm attn,
      mo_lm_subgraph m = Some lm ∧ mo_attn_subgraph m = Some attn ∧
      p = set_prediction_graph (answer_prediction q [] s a)
            {| lm_subgraph := lm; attn_subgraph := attn |}
    else p = answer_prediction q [] s a.
Proof.
  unfold graph_prediction. cbn [mbind result_bind new_PredictionOutput
    new_Prediction required_field default_field].
  destruct (mo_labels m) as [labels|]; cbn [getkey mbind result_bind]; [|done].
  unfold getitem. destruct (labels !! 0) as [label|] eqn:Hlabel;
    cbn [mbind result_bind]; [|done].
  intros Hp. exists labels, label. split_and!; [done..|].
  case_bool_decide; destruct (decide (Z.of_nat i = label)); try done.
  - destruct (mo_lm_subgraph m) as [lm|]; cbn in Hp; [|done].
    destruct (mo_attn_subgraph m) as [attn|]; cbn in Hp; [|done].
    injection Hp as <-. by exists lm, attn.
  - by injection Hp as <-.
Qed.

Lemma from_graph_ok questions answers m envelope :
  from_sequence_classification_with_graph questions answers m = Ok envelope →
  ∃ logits0 qs preds,
    first_logits m = Ok logits0 ∧
    iter_text (overwrite_from_model_api_output (mo_text m) "questions"
                 questions (length logits0)) = Ok qs ∧
    for_each (graph_prediction m)
      (enumerate (zip (zip qs logits0) answers)) = Ok preds ∧
    envelope = new_QueryOutput preds Omitted.
Proof.
  unfold from_sequence_classification_with_graph.
  destruct (first_logits m) as [logits0|]; cbn [mbind result_bind]; [|done].
  destruct (iter_text _) as [qs|] eqn:Hqs; cbn [mbind result_bind]; [|done].
  destruct (for_each _ _) as [preds|] eqn:Hloop; cbn [mbind result_bind];
    [|done].
  intros [= <-]. by exists logits0, qs, preds.
Qed.

(** The rows of the graph strategy's loop. *)
Lemma graph_rows_lookup (qs : list string) (logits0 : list Q)
    (answers : list string) k row :
  enumerate (zip (zip qs logits0) answers) !! k = Some row →
  ∃ q s a, row = (k, (q, s, a)) ∧
           qs !! k = Some q ∧ logits0 !! k = Some s ∧ answers !! k = Some a.
Proof.
  destruct row as [k' [[q s] a]]. intros [-> Hk]%enumerate_lookup.
  apply lookup_zip_with_Some in Hk as ([q1 s1] & a1 & [= -> -> ->] & Hqs & Ha).
  apply lookup_zip_with_Some in Hqs as (q2 & s2 & [= -> ->] & Hq & Hs).
  by eexists _, _, _.
Qed.

(** X14. Unlike the plain classification strategy, the graph strategy
    truncates: a returned envelope holds as many predictions as the
    shortest of the questions, the logits and the answers, and none of
    them has documents or attributions. *)
Theorem graph_strategy_truncates
    (questions : text_value) (answers : list string) (m : ClassificationOutput)
    (envelope : QueryOutput) :
  from_sequence_classification_with_graph questions answers m = Ok envelope →
  ∃ logits0 qs,
    first_logits m = Ok logits0 ∧
    iter_text (overwrite_from_model_api_output (mo_text m) "questions"
                 questions (length logits0)) = Ok qs ∧
    length (predictions envelope)
    = (length qs `min` length logits0) `min` length answers ∧
    ∀ p, p ∈ predictions envelope →
         prediction_documents p = [] ∧ attributions p = None.
Proof.
  intros (logits0 & qs & preds & Hlogits & Hqs & Hloop & ->)%from_graph_ok.
  exists logits0, qs. split_and!; [done..| |].
  - rewrite new_QueryOutput_perm.
    apply for_each_lookup in Hloop as [-> _]. unfold enumerate.
    repeat rewrite ?length_zip_with, ?length_seq. lia.
  - intros p. rewrite new_QueryOutput_perm.
    intros Hp. destruct (for_each_elem_of _ _ _ _ Hloop Hp) as (row & Hrow & Hok).
    apply list_elem_of_lookup in Hrow as [k Hrow].
    apply graph_rows_lookup in Hrow as (q & s & a & -> & _).
    apply graph_prediction_ok in Hok as (labels & label & _ & _ & Hcase).
    destruct (decide (Z.of_nat k = label)); [|by subst].
    by destruct Hcase as (lm & attn & _ & _ & ->).
Qed.

(** Three answers for two logits: the graph strategy keeps two. *)
Lemma graph_strategy_truncates_witness :
  ∃ envelope,
    from_sequence_classification_with_graph (VStr "q") ["a"; "b"; "c"]
      ex_graph_with_adversarial = Ok envelope ∧
    length (predictions envelope) = 2.
Proof.
  eexists. split; [reflexivity|].
  destruct (graph_strategy_truncates (VStr "q") ["a"; "b"; "c"]
              ex_graph_with_adversarial _ eq_refl)
    as (logits0 & qs & [= <-] & [= <-] & Hlen & _).
  exact Hlen.
Defined.

(** X15. Without a usable "labels" entry (missing, or an empty list) the
    graph strategy can only return the empty envelope: any row to process
    makes it raise. *)
Theorem graph_strategy_needs_labels
    (questions : text_value) (answers : list string) (m : ClassificationOutput)
    (envelope : QueryOutput) :
  mo_labels m = None ∨ mo_labels m = Some [] →
  from_sequence_classification_with_graph questions answers m = Ok envelope →
  envelope = {| predictions := []; adversarial := None |}.
Proof.
  intros Hlabels (logits0 & qs & preds & _ & _ & Hloop & ->)%from_graph_ok.
  destruct preds as [|p preds]; [done|exfalso].
  apply for_each_lookup in Hloop as [_ Hrows].
  destruct (Hrows 0 p eq_refl) as (row & Hrow & Hok).
  apply graph_rows_lookup in Hrow as (q & s & a & -> & _).
  apply graph_prediction_ok in Hok as (labels & label & Hl & Hl0 & _).
  destruct Hlabels as [Hnone|Hnil]; rewrite Hl in *; simplify_eq.
Qed.

(** No answers and no labels: the empty envelope. *)
Lemma graph_strategy_needs_labels_witness :
  from_sequence_classification_with_graph (VStr "q") []
    (ex_classification [[0.1; 0.9]%Q])
  = Ok {| predictions := []; adversarial := None |}.
Proof.
  pose proof (graph_strategy_needs_labels (VStr "q") []
                (ex_classification [[0.1; 0.9]%Q]) _ (or_introl eq_refl) eq_refl)
    as H.
  rewrite <-H. reflexivity.
Defined.

Lemma filter_none {A} (P : A → Prop) `{!∀ x, Decision (P x)} (l : list A) :
  (∀ x, x ∈ l → ¬ P x) → filter P l = [].
Proof.
  induction l as [|x l IH]; intros Hl; [done|].
  rewrite filter_cons_False by (apply Hl; by left).
  apply IH. intros y Hy. apply Hl. by right.
Qed.

(** A property that can only hold at one position holds for at most one
    element. *)
Lemma length_filter_at_most_one {A} (P : A → Prop) `{!∀ x, Decision (P x)}
    (l : list A) (k : nat) :
  (∀ i x, l !! i = Some x → P x → i = k) → length (filter P l) ≤ 1.
Proof.
  revert k. induction l as [|x l IH]; intros k Hl; [simpl; lia|].
  rewrite filter_cons. destruct (decide (P x)) as [Hx|Hx].
  - rewrite (filter_none P l); [simpl; lia|].
    intros y [i Hi]%list_elem_of_lookup Hy.
    pose proof (Hl 0 x eq_refl Hx). pose proof (Hl (S i) y Hi Hy). lia.
  - apply (IH (pred k)). intros i y Hi Hy.
    pose proof (Hl (S i) y Hi Hy). lia.
Qed.

(** A property that holds exactly at one position of the list holds for
    exactly one element. *)
Lemma length_filter_exactly_one {A} (P : A → Prop) `{!∀ x, Decision (P x)}
    (l : list A) (k : nat) :
  (∀ i x, l !! i = Some x → (P x ↔ i = k)) → k < length l →
  length (filter P l) = 1.
Proof.
  revert k. induction l as [|x l IH]; intros k Hl Hk; [simpl in Hk; lia|].
  rewrite filter_cons. destruct (decide (P x)) as [Hx|Hx].
  - rewrite (filter_none P l); [done|].
    intros y [i Hi]%list_elem_of_lookup Hy.
    pose proof (proj1 (Hl 0 x eq_refl) Hx).
    pose proof (proj1 (Hl (S i) y Hi) Hy). lia.
  - destruct k as [|k]; [by destruct Hx; apply (Hl 0 x eq_refl)|].
    apply (IH k); [|simpl in Hk; lia].
    intros i y Hi. rewrite (Hl (S i) y Hi). lia.
Qed.

(** In the loop's list the graph sits at the labelled position and nowhere
    else. *)
Lemma graph_predictions_positional qs logits0 answers m preds k p :
  for_each (graph_prediction m)
    (enumerate (zip (zip qs logits0) answers)) = Ok preds →
  preds !! k = Some p →
  ∃ labels label q s a,
    mo_labels m = Some labels ∧ labels !! 0 = Some label ∧
    answers !! k = Some a ∧
    if decide (Z.of_nat k = label)
    then ∃ lm attn,
      mo_lm_subgraph m = Some lm ∧ mo_attn_subgraph m = Some attn ∧
      p = set_prediction_graph (answer_prediction q [] s a)
            {| lm_subgraph := lm; attn_subgraph := attn |}
    else p = answer_prediction q [] s a.
Proof.
  intros [_ Hrows]%for_each_lookup Hp.
  destruct (Hrows k p Hp) as (row & Hrow & Hok).
  apply graph_rows_lookup in Hrow as (q & s & a & -> & _ & _ & Ha).
  apply graph_prediction_ok in Hok as (labels & label & Hl & Hl0 & Hcase).
  by exists labels, label, q, s, a.
Qed.

(** X16. In an envelope returned by the graph strategy at most one
    prediction carries a graph.  A prediction that does is the one built
    at the position named by the first label, and its graph is made of the
    payload's two subgraphs; if that position is among the predictions
    built, exactly one prediction carries a graph. *)
Theorem graph_attached_at_label_only
    (questions : text_value) (answers : list string) (m : ClassificationOutput)
    (envelope : QueryOutput) :
  from_sequence_classification_with_graph questions answers m = Ok envelope →
  length (filter has_graph (predictions envelope)) ≤ 1 ∧
  (∀ p, p ∈ predictions envelope → has_graph p →
     ∃ labels i lm attn,
       mo_labels m = Some labels ∧ labels !! 0 = Some (Z.of_nat i) ∧
       mo_lm_subgraph m = Some lm ∧ mo_attn_subgraph m = Some attn ∧
       prediction_graph p
       = Some {| lm_subgraph := lm; attn_subgraph := attn |} ∧
       answers !! i = Some (output (prediction_output p))) ∧
  (∀ labels i,
     mo_labels m = Some labels → labels !! 0 = Some (Z.of_nat i) →
     i < length (predictions envelope) →
     length (filter has_graph (predictions envelope)) = 1).
Proof.
  intros (logits0 & qs & preds & _ & _ & Hloop & ->)%from_graph_ok.
  pose proof (λ k p, graph_predictions_positional _ _ _ _ _ k p Hloop) as Hpos.
  assert (Hgraph : ∀ k p, preds !! k = Some p → has_graph p →
    ∃ labels lm attn,
      mo_labels m = Some labels ∧ labels !! 0 = Some (Z.of_nat k) ∧
      mo_lm_subgraph m = Some lm ∧ mo_attn_subgraph m = Some attn ∧
      prediction_graph p = Some {| lm_subgraph := lm; attn_subgraph := attn |} ∧
      answers !! k = Some (output (prediction_output p))).
  { intros k p Hp Hg.
    destruct (Hpos k p Hp) as (labels & label & q & s & a & Hl & Hl0 & Ha & Hcase).
    destruct (decide (Z.of_nat k = label)) as [<-|]; [|by subst].
    destruct Hcase as (lm & attn & Hlm & Hattn & ->).
    by exists labels, lm, attn. }
  rewrite !(new_QueryOutput_perm preds Omitted). split_and!.
  - destruct preds as [|p0 preds0] eqn:Hpreds; [simpl; lia|]. rewrite <-Hpreds in *.
    destruct (Hpos 0 p0) as (labels & label & _ & _ & _ & Hl & Hl0 & _);
      [by rewrite Hpreds|].
    apply (length_filter_at_most_one _ _ (Z.to_nat label)).
    intros k p Hp Hg.
    destruct (Hgraph k p Hp Hg) as (labels' & _ & _ & Hl' & Hl0' & _).
    rewrite Hl in Hl'. injection Hl' as <-. rewrite Hl0 in Hl0'.
    injection Hl0' as ->. lia.
  - intros p Hp Hg. rewrite new_QueryOutput_perm in Hp.
    apply list_elem_of_lookup in Hp as [k Hp].
    destruct (Hgraph k p Hp Hg) as (labels & lm & attn & ?).
    by exists labels, k, lm, attn.
  - intros labels i Hl Hl0 Hi. rewrite new_QueryOutput_perm in Hi.
    rewrite (new_QueryOutput_perm preds Omitted).
    apply (length_filter_exactly_one _ _ i); [|done].
    intros k p Hp. split.
    + intros Hg. destruct (Hgraph k p Hp Hg) as (labels' & _ & _ & Hl' & Hl0' & _).
      rewrite Hl in Hl'. injection Hl' as <-. rewrite Hl0 in Hl0'.
      injection Hl0' as Heq. lia.
    + intros ->.
      destruct (Hpos i p Hp) as (labels' & label & q & s & a & Hl' & Hl0' & _ & Hcase).
      rewrite Hl in Hl'. injection Hl' as <-. rewrite Hl0 in Hl0'.
      injection Hl0' as <-.
      destruct (decide (Z.of_nat i = Z.of_nat i)); [|done].
      by destruct Hcase as (lm & attn & _ & _ & ->).
Qed.

(** One graph, at label 1. *)
Lemma graph_attached_at_label_only_witness :
  ∃ envelope,
    from_sequence_classification_with_graph (VStr "q") ["a"; "b"]
      ex_graph_with_adversarial = Ok envelope ∧
    length (filter has_graph (predictions envelope)) = 1.
Proof.
  eexists. split; [reflexivity|].
  destruct (graph_attached_at_label_only (VStr "q") ["a"; "b"]
              ex_graph_with_adversarial _ eq_refl) as (_ & _ & Hone).
  apply (Hone [1%Z] 1); [reflexivity|reflexivity|simpl; lia].
Defined.

(* ===================================================================== *)
(** ** More on the alignment helper and the attributions lookup *)
(* ===================================================================== *)

(** [seq] counts upwards. *)
Lemma increasing_seq j n : StronglySorted le (seq j n).
Proof.
  revert j. induction n as [|n IH]; intros j; simpl; constructor; [apply IH|].
  apply Forall_forall. intros k Hk%elem_of_seq. lia.
Qed.

(** Sorting the pairs of a ranking and a list by position puts every
    element at the position it is paired with. *)
Lemma sorted_zip_lookup {A} (idx : list nat) (xs : list A) j i x :
  idx ≡ₚ seq 0 (length xs) →
  idx !! j = Some i → xs !! j = Some x →
  (sorted_by_key Nat.ltb fst false (zip idx xs)).*2 !! i = Some x.
Proof.
  intros Hperm Hi Hx.
  set (S := sorted_by_key Nat.ltb fst false (zip idx xs)).
  assert (HS : S ≡ₚ zip idx xs) by apply sorted_perm.
  assert (Hlen : length idx = length xs).
  { by rewrite Hperm, length_seq. }
  assert (Hfst : S.*1 = seq 0 (length xs)).
  { apply (StronglySorted_unique le).
    - apply (StronglySorted_fmap fst
               (λ p q : nat * A, (q.1 <? p.1) = false) le).
      + intros p q Hpq. apply Nat.ltb_ge in Hpq. done.
      + apply (stable_sort_ascending (λ p q : nat * A, p.1 <? q.1) (λ _, True)).
        * intros p q _ _. rewrite Nat.ltb_lt, Nat.ltb_ge. lia.
        * intros p q r _ _ _. rewrite !Nat.ltb_ge. lia.
        * by apply Forall_true.
    - apply increasing_seq.
    - rewrite HS, fst_zip by lia. done. }
  assert (Hin : (i, x) ∈ S).
  { rewrite HS. apply list_elem_of_lookup. exists j.
    apply lookup_zip_with_Some. by exists i, x. }
  apply list_elem_of_lookup in Hin as [k Hk].
  assert (k = i) as ->.
  { assert (S.*1 !! k = Some i) as Hk1 by (by rewrite list_lookup_fmap, Hk).
    rewrite Hfst in Hk1. apply lookup_seq in Hk1. lia. }
  by rewrite list_lookup_fmap, Hk.
Qed.

Lemma filter_all {A} (P : A → Prop) `{!∀ x, Decision (P x)} (l : list A) :
  (∀ x, x ∈ l → P x) → filter P l = l.
Proof.
  induction l as [|x l IH]; intros Hl; [done|].
  rewrite filter_cons_True by (apply Hl; by left).
  f_equal. apply IH. intros y Hy. apply Hl. by right.
Qed.

(** In a list of scores, a score that has only higher scores before it and
    no higher score after it is preceded by exactly the scores above it. *)
Lemma scores_above_position (vs : list Q) (j : nat) (x : Q) :
  vs !! j = Some x →
  (∀ k y, k < j → vs !! k = Some y → (x < y)%Q) →
  (∀ k y, j < k → vs !! k = Some y → (y <= x)%Q) →
  scores_above vs x = j.
Proof.
  intros Hj Hbefore Hafter. unfold scores_above.
  rewrite <-(take_drop_middle vs j x Hj) at 1. rewrite filter_app, length_app.
  rewrite (filter_all _ (take j vs)), (filter_none _ (x :: drop (S j) vs)).
  - simpl. rewrite length_take_le; [lia|]. apply lookup_lt_Some in Hj. lia.
  - intros y Hy Hlt. apply Is_true_true, Qlt_bool_true in Hlt.
    apply elem_of_cons in Hy as [->|Hy]; [lra|].
    apply list_elem_of_lookup in Hy as [k Hk]. rewrite lookup_drop in Hk.
    specialize (Hafter (S j + k) y). cut (y <= x)%Q; [lra|].
    apply Hafter; [lia|done].
  - intros y [k Hk]%list_elem_of_lookup. apply Is_true_true, Qlt_bool_true.
    apply lookup_take_Some in Hk as [Hk Hkj]. by eapply Hbefore.
Qed.

(** The ranking [np.argsort(scores)[::-1]] of pairwise distinct scores
    lists every position at the number of scores above its own.  No other
    ranking of such scores is in descending order, so with them the
    outcome does not depend on how a sort orders equal scores. *)
Lemma reverse_argsort_position scores i x :
  pairwise_distinct scores → scores !! i = Some x →
  reverse (argsort scores) !! scores_above scores x = Some i.
Proof.
  intros Hdistinct Hx. unfold argsort, sorted_by_key. rewrite <-fmap_reverse.
  set (R := reverse (sorted (λ p q : nat * Q, Qlt_bool p.2 q.2) false
                       (enumerate scores))).
  assert (Hperm : R ≡ₚ enumerate scores).
  { unfold R. by rewrite reverse_Permutation, sorted_perm. }
  assert (Hsorted : ∀ k1 k2 p q,
            k1 < k2 → R !! k1 = Some p → R !! k2 = Some q → (q.2 <= p.2)%Q).
  { intros k1 k2 p q Hk Hp Hq. apply Qlt_bool_false.
    apply (StronglySorted_lookup
             (flip (λ p q : nat * Q, Qlt_bool q.2 p.2 = false)) R k1 k2 p q);
      [|done..].
    unfold R. simpl. apply StronglySorted_reverse.
    apply (stable_sort_ascending (λ p q : nat * Q, Qlt_bool p.2 q.2) (λ _, True)).
    - intros a b _ _. rewrite Qlt_bool_true, Qlt_bool_false. lra.
    - intros a b c _ _ _. rewrite !Qlt_bool_false. lra.
    - by apply Forall_true. }
  assert (Hscore : ∀ k i' y, R !! k = Some (i', y) → scores !! i' = Some y).
  { intros k i' y Hk. apply elem_of_enumerate. rewrite <-Hperm.
    by eapply list_elem_of_lookup_2. }
  assert (Hnodup : NoDup R.*1).
  { rewrite Hperm, fst_enumerate. apply NoDup_seq. }
  assert (Hin : (i, x) ∈ R) by (rewrite Hperm; by apply elem_of_enumerate).
  apply list_elem_of_lookup in Hin as [j Hj].
  assert (scores_above scores x = j) as ->; [|by rewrite list_lookup_fmap, Hj].
  assert (scores_above scores x = scores_above R.*2 x) as ->.
  { unfold scores_above. apply Permutation_length, filter_Permutation.
    rewrite Hperm. unfold enumerate. rewrite snd_zip; [done|].
    by rewrite length_seq. }
  apply scores_above_position.
  - by rewrite list_lookup_fmap, Hj.
  - intros k y Hkj Hk. apply list_lookup_fmap_Some_1 in Hk as ([i' y'] & -> & Hk).
    simpl. pose proof (Hsorted _ _ _ _ Hkj Hk Hj) as Hle.
    simpl in Hle. destruct (Qeq_dec x y') as [Heq|Hne]; [exfalso|lra].
    assert (i = i') as <-.
    { by eapply (Hdistinct i i' x y'); eauto. }
    assert (k = j); [|lia].
    eapply (NoDup_lookup _ _ _ _ Hnodup); rewrite list_lookup_fmap.
    + by rewrite Hk.
    + by rewrite Hj.
  - intros k y Hjk Hk. apply list_lookup_fmap_Some_1 in Hk as ([i' y'] & -> & Hk).
    exact (Hsorted _ _ _ _ Hjk Hj Hk).
Qed.

(** X20. For pairwise distinct scores and fewer attributions than scores,
    the alignment helper returns a list as long as the scores in which the
    position of a score with [j] scores above it holds the attribution
    originally at position [j], or the fill value when there are no more
    than [j] attributions: the attributions follow the scores from the
    highest down, and the fill values go to the lowest scores. *)
Theorem extend_and_sort_attributions_by_rank
    (scores : list Q) (l : nat) (attrs : list attribution_entry)
    (fill : attribution_entry) (h : heap) :
  h !! l = Some attrs →
  length attrs < length scores →
  pairwise_distinct scores →
  ∃ res,
    (extend_and_sort_attributions_to_scores scores l fill h).1 = Ok res ∧
    length res = length scores ∧
    ∀ i x, scores !! i = Some x →
      res !! i = Some (default fill (attrs !! scores_above scores x)).
Proof.
  intros Hl Hlt Hdistinct. rewrite (extend_and_sort_run _ _ _ _ _ Hl).
  rewrite bool_decide_eq_true_2 by done. cbn [fst].
  eexists. split; [done|].
  set (extended := attrs ++ replicate (length scores - length attrs) fill).
  assert (Hext : length extended = length scores).
  { unfold extended. rewrite length_app, length_replicate. lia. }
  assert (Hperm : reverse (argsort scores) ≡ₚ seq 0 (length extended)).
  { by rewrite Hext, reverse_Permutation, argsort_perm. }
  split.
  - rewrite length_fmap. unfold sorted_by_key.
    rewrite sorted_perm, length_zip_with, Hperm, length_seq. lia.
  - intros i x Hx.
    pose proof (reverse_argsort_position scores i x Hdistinct Hx) as Hi.
    apply (sorted_zip_lookup _ extended (scores_above scores x)); [done..|].
    assert (scores_above scores x < length scores) as Hj.
    { apply lookup_lt_Some in Hi. rewrite Hperm, length_seq in Hi. lia. }
    unfold extended.
    destruct (attrs !! scores_above scores x) as [a|] eqn:Ha; simpl.
    + by apply lookup_app_l_Some.
    + apply lookup_ge_None in Ha. rewrite lookup_app_r by done.
      apply lookup_replicate_2. lia.
Qed.

(** The scenario of the specification: one attribution for the scores
    0.2, 0.9 and 0.5 goes to position 1, where the highest score is.
    Scores 0.9 and 0.5 with two attributions make the other branch run. *)
Lemma extend_and_sort_attributions_by_rank_witness :
  ∃ res,
    (extend_and_sort_attributions_to_scores [0.2; 0.9; 0.5]%Q 0 None ex_heap).1
    = Ok res ∧
    length res = 3 ∧
    res !! 1 = Some (Some ex_a0).
Proof.
  destruct (extend_and_sort_attributions_by_rank [0.2; 0.9; 0.5]%Q 0
              [Some ex_a0] None ex_heap) as (res & Hres & Hlen & Hpos).
  - reflexivity.
  - simpl. lia.
  - intros [|[|[|i]]] [|[|[|j]]] x y; simpl; intros [= <-] [= <-]; try done;
      intros Heq; exfalso; lra.
  - exists res. split_and!; [done..|]. exact (Hpos 1 0.9%Q eq_refl).
Defined.

(** X17. The alignment helper neither drops nor duplicates an attribution:
    what it returns is, in some order, the given attributions followed by
    as many fill values as the scores list is longer. *)
Theorem extend_and_sort_attributions_permutes
    (scores : list Q) (l : nat) (attrs : list attribution_entry)
    (fill : attribution_entry) (h : heap) :
  h !! l = Some attrs →
  ∃ res,
    (extend_and_sort_attributions_to_scores scores l fill h).1 = Ok res ∧
    res ≡ₚ attrs ++ replicate (length scores - length attrs) fill.
Proof.
  intros Hl. rewrite (extend_and_sort_run _ _ _ _ _ Hl).
  case_bool_decide as Hlt; simpl.
  - eexists. split; [done|].
    change (stable_sort (λ a b : nat * attribution_entry, a.1 <? b.1))
      with (sorted (λ a b : nat * attribution_entry, a.1 <? b.1) false).
    rewrite sorted_perm, snd_zip; [done|].
    rewrite length_app, length_replicate, length_reverse, argsort_perm, length_seq.
    lia.
  - exists attrs. split; [done|].
    replace (length scores - length attrs) with 0 by lia.
    by rewrite app_nil_r.
Qed.

(** One attribution for three scores. *)
Lemma extend_and_sort_attributions_permutes_witness :
  ∃ res,
    (extend_and_sort_attributions_to_scores [0.2; 0.9; 0.5]%Q 0 None ex_heap).1
    = Ok res ∧
    res ≡ₚ [Some ex_a0; None; None].
Proof.
  apply (extend_and_sort_attributions_permutes [0.2; 0.9; 0.5]%Q 0
           [Some ex_a0] None ex_heap).
  reflexivity.
Defined.

Lemma int_list_ok v l : int_list v = Ok l ↔ v = IntItem <$> l.
Proof.
  unfold int_list. rewrite for_each_Forall2. split.
  - induction 1 as [|[z|t] z' v l Hz _ IH]; simplify_eq/=; by f_equal.
  - intros ->. induction l; constructor; done.
Qed.

Lemma token_list_ok v l : token_list v = Ok l ↔ v = TokenItem <$> l.
Proof.
  unfold token_list. rewrite for_each_Forall2. split.
  - induction 1 as [|[z|t] t' v l Ht _ IH]; simplify_eq/=; by f_equal.
  - intros ->. induction l; constructor; done.
Qed.

Lemma for_each_raises_only {A B} (f : A → result B) (e0 : exn) xs e :
  (∀ x e, f x = Raise e → e = e0) → for_each f xs = Raise e → e = e0.
Proof.
  intros Hf. induction xs as [|x xs IH]; simpl; [done|].
  destruct (f x) as [y|e'] eqn:Hx; simpl; [|intros [= <-]; by eapply Hf].
  destruct (for_each f xs) as [ys|e']; simpl; [done|].
  intros [= <-]. by apply IH.
Qed.

(** Parsing can only fail with a [ValidationError]. *)
Lemma parse_Attributions_raises d e :
  parse_Attributions d = Raise e → e = ValidationError.
Proof.
  assert (Hint : ∀ name e, parse_field d name int_list = Raise e →
                           e = ValidationError).
  { intros name e'. unfold parse_field, int_list.
    destruct (d !! name); [|by intros [= <-]].
    apply for_each_raises_only. intros [z|t] e''; by intros [= <-]. }
  assert (Htok : ∀ name e, parse_field d name token_list = Raise e →
                           e = ValidationError).
  { intros name e'. unfold parse_field, token_list.
    destruct (d !! name); [|by intros [= <-]].
    apply for_each_raises_only. intros [z|t] e''; by intros [= <-]. }
  unfold parse_Attributions.
  destruct (parse_field d "topk_question_idx" int_list) eqn:H1;
    cbn [mbind result_bind]; [|intros [= <-]; by eapply Hint].
  destruct (parse_field d "topk_context_idx" int_list) eqn:H2;
    cbn [mbind result_bind]; [|intros [= <-]; by eapply Hint].
  destruct (parse_field d "question_tokens" token_list) eqn:H3;
    cbn [mbind result_bind]; [|intros [= <-]; by eapply Htok].
  destruct (parse_field d "context_tokens" token_list) eqn:H4;
    cbn [mbind result_bind]; [done|intros [= <-]; by eapply Htok].
Qed.

(** Parsing succeeds exactly on a mapping that holds, under the four field
    names, the items of the four fields. *)
Lemma parse_Attributions_ok d a :
  parse_Attributions d = Ok a ↔
  d !! "topk_question_idx" = Some (IntItem <$> topk_question_idx a) ∧
  d !! "topk_context_idx" = Some (IntItem <$> topk_context_idx a) ∧
  d !! "question_tokens" = Some (TokenItem <$> question_tokens a) ∧
  d !! "context_tokens" = Some (TokenItem <$> context_tokens a).
Proof.
  unfold parse_Attributions, parse_field. split.
  - destruct (d !! "topk_question_idx") as [v1|]; [|done].
    destruct (int_list v1) as [tq|] eqn:H1; cbn [mbind result_bind]; [|done].
    destruct (d !! "topk_context_idx") as [v2|]; [|done].
    destruct (int_list v2) as [tc|] eqn:H2; cbn [mbind result_bind]; [|done].
    destruct (d !! "question_tokens") as [v3|]; [|done].
    destruct (token_list v3) as [qt|] eqn:H3; cbn [mbind result_bind]; [|done].
    destruct (d !! "context_tokens") as [v4|]; [|done].
    destruct (token_list v4) as [ct|] eqn:H4; cbn [mbind result_bind]; [|done].
    intros [= <-]. simpl.
    apply int_list_ok in H1 as ->. apply int_list_ok in H2 as ->.
    apply token_list_ok in H3 as ->. by apply token_list_ok in H4 as ->.
  - intros (-> & -> & -> & ->).
    rewrite !(proj2 (int_list_ok _ _) eq_refl). cbn [mbind result_bind].
    rewrite !(proj2 (token_list_ok _ _) eq_refl). cbn [mbind result_bind].
    by destruct a.
Qed.

Lemma entries_at_lookup d i name :
  omap (λ col : list (list attribution_item), col !! i) d !! name
  = entry_at d name i.
Proof. by rewrite lookup_omap. Qed.

(** X18. The attributions lookup of the QA strategy reads the first entry
    of the attributions list only.  It raises [IndexError] exactly when
    the list is empty or some column of that entry, under whatever name,
    has no entry at the context's position.  It returns exactly when that
    entry exists, each of its columns has an entry at the context's
    position, and the entries at that position under the four field names
    are lists of integers (the two index fields) and of token attributions
    (the two token fields); what it returns is made of these four lists.
    Every other failure is a [ValidationError]. *)
Theorem get_attribution_by_context_i_outcomes
    (attrs : list AttributionColumns) (i : nat) :
  (get_attribution_by_context_i attrs i = Raise IndexError ↔
     attrs = [] ∨
     ∃ cols rest name col,
       attrs = cols :: rest ∧ cols !! name = Some col ∧ length col ≤ i) ∧
  (∀ a, get_attribution_by_context_i attrs i = Ok a ↔
     ∃ cols rest,
       attrs = cols :: rest ∧
       (∀ name col, cols !! name = Some col → i < length col) ∧
       entry_at cols "topk_question_idx" i
       = Some (IntItem <$> topk_question_idx a) ∧
       entry_at cols "topk_context_idx" i
       = Some (IntItem <$> topk_context_idx a) ∧
       entry_at cols "question_tokens" i
       = Some (TokenItem <$> question_tokens a) ∧
       entry_at cols "context_tokens" i
       = Some (TokenItem <$> context_tokens a)) ∧
  (∀ e, get_attribution_by_context_i attrs i = Raise e →
        e = IndexError ∨ e = ValidationError).
Proof.
  unfold get_attribution_by_context_i, getitem, entries_at.
  destruct attrs as [|cols rest]; cbn [lookup list_lookup mbind result_bind].
  { split_and!; [split; [by left|done]| |intros e [= <-]; by left].
    intros a. split; [done|]. by intros (? & ? & ? & _). }
  case_bool_decide as Hcols; cbn [mbind result_bind].
  - split_and!.
    + split.
      * by intros ?%parse_Attributions_raises.
      * intros [?|(cols' & rest' & name & col & [= <- <-] & Hcol & Hlen)]; [done|].
        specialize (Hcols name col Hcol). simpl in Hcols. lia.
    + intros a. rewrite parse_Attributions_ok, !entries_at_lookup. split.
      * intros ?. exists cols, rest. split_and!; [done| |tauto..].
        intros name col Hcol. exact (Hcols name col Hcol).
      * intros (cols' & rest' & [= <- <-] & _ & ?). done.
    + intros e ?%parse_Attributions_raises. by right.
  - split_and!.
    + split; [intros _; right|done].
      set (P := λ (_ : string) (col : list (list attribution_item)),
                  i < length col) in Hcols.
      assert (HP : ∀ name col, Decision (P name col))
        by (intros; unfold P; apply _).
      destruct (proj1 (map_not_Forall P cols) Hcols)
        as (name & col & Hcol & Hlen). unfold P in Hlen.
      exists cols, rest, name, col. split_and!; [done..|lia].
    + intros a. split; [done|].
      intros (cols' & rest' & [= <- <-] & Hall & _). destruct Hcols.
      intros name col Hcol. exact (Hall name col Hcol).
    + intros e [= <-]. by left.
Qed.

(** X19. With a list of contexts the extractive QA strategy raises and
    returns no envelope when the list has fewer entries than there are
    iterated question/answers pairs, and also when the context score is a
    single number and at least one pair is iterated. *)
Theorem question_answering_context_list_raises
    (questions : text_value) (m : QuestionAnsweringOutput)
    (context : list string) (context_score : score_value)
    (pairs : list (nat * (string * list Answer))) :
  qa_pairs questions m = Ok pairs →
  length context < length pairs ∨
  ((∃ x, context_score = SFloat x) ∧ 0 < length pairs) →
  raises (from_question_answering questions m (VList context) context_score).
Proof.
  intros Hpairs Hbad. unfold from_question_answering. rewrite Hpairs.
  cbn [mbind result_bind].
  assert (∃ row, row ∈ pairs ∧
            raises (qa_pair (VList context) context_score (qa_attributions m) row))
    as (row & Hrow & Hraise).
  { apply qa_pairs_ok in Hpairs as (groups & qs & _ & ->).
    destruct Hbad as [Hshort|[[x ->] Hsome]].
    - destruct (lookup_lt_is_Some_2 _ _ Hshort) as [[i [q answers]] Hrow].
      exists (i, (q, answers)). split; [by eapply list_elem_of_lookup_2|].
      apply enumerate_lookup in Hrow as [-> _].
      unfold qa_pair, context_of_pair, getitem.
      rewrite lookup_ge_None_2 by done. by exists IndexError.
    - destruct (lookup_lt_is_Some_2 _ _ Hsome) as [[i [q answers]] Hrow].
      exists (i, (q, answers)). split; [by eapply list_elem_of_lookup_2|].
      unfold qa_pair, context_of_pair.
      destruct (getitem context i) as [d|e]; cbn; [|by exists e].
      by exists TypeError. }
  destruct (for_each_elem_raises _ _ _ Hrow Hraise) as [e He].
  rewrite He. by exists e.
Qed.

(** One context for one pair, with a single number as context score. *)
Lemma question_answering_context_list_raises_witness :
  raises (from_question_answering (VStr "q") ex_question_answering
            (VList ["Paris is the capital of France."]) (SFloat 0.5)).
Proof.
  eapply question_answering_context_list_raises.
  - reflexivity.
  - right. split; [by eexists|]. simpl. lia.
Defined.

(* ===================================================================== *)
(** ** The extra properties on the example data *)
(* ===================================================================== *)

(** The candidate without text comes out with the sentinel. *)
Lemma question_answering_predictions_from_candidates_witness :
  ∃ envelope p,
    from_question_answering (VStr "q") ex_two_candidates
      (VStr "Paris is the capital of France.") SNone = Ok envelope ∧
    predictions envelope !! 1 = Some p ∧
    output (prediction_output p) = NO_ANSWER_FOUND_STRING ∧
    output (prediction_output p) ≠ "".
Proof.
  eexists _, _. split; [reflexivity|]. split; [reflexivity|].
  split; [reflexivity|].
  eapply (question_answering_predictions_from_candidates (VStr "q")
            ex_two_candidates (VStr "Paris is the capital of France.") SNone).
  - reflexivity.
  - apply list_elem_of_lookup. exists 1. reflexivity.
Defined.


(** With a context string and no context score, the document of the first
    prediction holds the string, the span of "Paris" and the score 1. *)
Lemma question_answering_documents_follow_context_witness :
  ∃ groups i group ans,
    qa_answers ex_two_candidates = Some groups ∧ groups !! i = Some group ∧
    ans ∈ group ∧
    Num 0.8 = score ans ∧
    "Paris" = answer_text ans ∧
    ∃ x,
      (SNone = SNone ∧ x = 1%Q ∨ SNone = SFloat x) ∧
      [span_document "Paris is the capital of France." ex_paris 1]
      = [span_document "Paris is the capital of France." ans x].
Proof.
  exact (question_answering_documents_follow_context (VStr "q")
           ex_two_candidates (VStr "Paris is the capital of France.") SNone
           _
           {| question := "q"; prediction_score := 0.8;
              prediction_output := {| output := "Paris"; output_score := 0.8 |};
              prediction_documents :=
                [span_document "Paris is the capital of France." ex_paris 1];
              prediction_graph := None; attributions := None |}
           eq_refl (list_elem_of_here _ _)).
Defined.

(** A payload whose only group is empty. *)
Lemma question_answering_empty_group_raises_witness :
  raises (from_question_answering (VStr "q") ex_empty_group VNone SNone).
Proof.
  apply (question_answering_empty_group_raises (VStr "q") ex_empty_group
           VNone SNone [(0, ("q", []))] 0 "q").
  - reflexivity.
  - apply list_elem_of_here.
Defined.


(** Two attributions for two logits. *)
Lemma classification_keeps_long_attributions_witness :
  (from_sequence_classification (VStr "q") ["a"; "b"] ex_with_attributions
     VNone {[ 0 := [Some ex_a0; Some ex_a1] ]}).2
  = {[ 0 := [Some ex_a0; Some ex_a1] ]}.
Proof.
  apply (classification_keeps_long_attributions _ _ _ _ _ 0
           [Some ex_a0; Some ex_a1] [0.2; 0.9]%Q); reflexivity.
Defined.

(** The attributions of the only context. *)
Lemma get_attribution_by_context_i_outcomes_witness :
  get_attribution_by_context_i [ex_columns] 0 = Ok ex_a0.
Proof.
  apply (get_attribution_by_context_i_outcomes [ex_columns] 0).
  exists ex_columns, []. split; [reflexivity|]. split.
  - intros name col Hcol.
    assert (Hall : map_Forall (λ _ (c : list (list attribution_item)),
                                 0 < length c) ex_columns)
      by (apply (bool_decide_unpack _); vm_compute; exact I).
    exact (Hall name col Hcol).
  - repeat split; reflexivity.
Defined.
